(** * NetworkAgent: the per-peer protocol driver

    A shallow embedding of [class NetworkAgent] (handshake, liveness and
    address exchange over one channel) together with the properties of its
    specification.

    The agent is a JavaScript object whose handlers run one at a time on the
    event loop.  Each handler is embedded as a computation in a small
    state-and-output monad: the state is the agent's own fields, the output
    is the ordered list of calls it makes on its collaborators (channel,
    address pool, console) and of the events it fires to its listeners. *)

From stdpp Require Import gmap strings pretty list.

Open Scope string_scope.

(** ** Messages *)

(** Modelled from the spec: [Message.Type], whose declaration is missing,
    with the six kinds the agent subscribes to. *)
Module Message.
Inductive Type_ := VERSION | VERACK | ADDR | GETADDR | PING | PONG.

Definition eqb (a b : Type_) : bool :=
  match a, b with
  | VERSION, VERSION | VERACK, VERACK | ADDR, ADDR
  | GETADDR, GETADDR | PING, PING | PONG, PONG => true
  | _, _ => false
  end.
End Message.

(** Peer addresses are opaque to the agent: it only passes them on. *)
Definition NetAddress := string.

(** The payload of a version message ([msg.version], [msg.services],
    [msg.startHeight]). *)
Record VersionMessage := {
  version : N;
  services : N;
  startHeight : N
}.

(** A decoded inbound message, as handed over by the channel. *)
Inductive Msg :=
| MVersion (v : VersionMessage)
| MVerAck
| MAddr (addresses : list NetAddress)
| MGetAddr (serviceMask : N)
| MPing (nonce : N)
| MPong (nonce : N).

(** [msg.type] *)
Definition type (msg : Msg) : Message.Type_ :=
  match msg with
  | MVersion _ => Message.VERSION
  | MVerAck => Message.VERACK
  | MAddr _ => Message.ADDR
  | MGetAddr _ => Message.GETADDR
  | MPing _ => Message.PING
  | MPong _ => Message.PONG
  end.

(** Modelled from the spec: [RejectMessage.Code], whose declaration is
    missing, with the one code the agent sends. *)
Module RejectMessage.
Inductive Code := DUPLICATE.
End RejectMessage.

(** [new Peer(channel, version, services, netAddress, startHeight)] *)
Record Peer := {
  peer_channel : string;
  peer_version : N;
  peer_services : N;
  peer_netAddress : string;
  peer_startHeight : N
}.

(** ** Collaborators *)

(** What the agent reads from the objects it is constructed with and from
    its platform: the channel (identified by the string it prints as), the
    blockchain height, the address pool's query, [PlatformUtils.isBrowser()]
    and the two service bits of [Services]. *)
Record Env := {
  channel : string;
  blockchain_height : N;
  addresses_find : N -> list NetAddress;
  isBrowser : bool;
  WEBSOCKET : N;
  WEBRTC : N
}.

(** Calls made on the collaborators and events fired to the listeners, in
    program order. *)
Inductive Effect :=
| channel_version (height : N)
| channel_verack
| channel_getaddr (serviceMask : Z)
| channel_addr (addresses : list NetAddress)
| channel_ping (nonce : N)
| channel_pong (nonce : N)
| channel_reject (messageType : string) (code : RejectMessage.Code)
| channel_close (reason : string)
| addresses_push (source : string) (addresses : list NetAddress)
| fire_connected (peer : Peer)
| fire_addresses (addresses : list NetAddress)
| console_log (line : string)
| console_warn (line : string)
| console_warn_msg (line : string) (msg : Msg).

(** ** Timers *)

(** The closures the agent hands to [setTimeout]: the four
    [() => this._channel.close(reason)] and the getaddr one, which fires
    [addresses] with the empty list. *)
Inductive TimeoutCallback :=
| close_channel (reason : string)
| no_addresses.

(** The only closure handed to [setInterval]:
    [() => this._checkConnectivity()]. *)
Inductive IntervalCallback :=
| check_connectivity.

(** Modelled from the spec: the [Timers] helper class (the timer registry),
    whose source is missing.  Named one-shot and
    repeating timers; clearing an absent name does nothing; arming a name
    that is still armed replaces the old entry; a one-shot entry is gone
    once it has fired.  The registry has no clock: a timer that is armed may
    fire at any later turn of the event loop, so the delays are carried to
    the calls and not used. *)
Module Timers.
Record t := {
  timeouts : gmap string TimeoutCallback;
  intervals : gmap string IntervalCallback
}.

Definition new : t := {| timeouts := ∅; intervals := ∅ |}.

Definition setTimeout (key : string) (fn : TimeoutCallback) (waitTime : N)
  (r : t) : t :=
  {| timeouts := <[key := fn]> (timeouts r); intervals := intervals r |}.

Definition clearTimeout (key : string) (r : t) : t :=
  {| timeouts := delete key (timeouts r); intervals := intervals r |}.

Definition setInterval (key : string) (fn : IntervalCallback) (waitTime : N)
  (r : t) : t :=
  {| timeouts := timeouts r; intervals := <[key := fn]> (intervals r) |}.

Definition clearInterval (key : string) (r : t) : t :=
  {| timeouts := timeouts r; intervals := delete key (intervals r) |}.
End Timers.

(** ** The agent *)

(** The agent's mutable fields.  [suspended] holds the invocations of
    [_onAddr] that are parked at [await this._addresses.push(...)], each with
    the [msg.addresses] it will fire once the pool's promise resolves. *)
Record NetworkAgent := {
  _connected : bool;
  _version : option VersionMessage;
  _timers : Timers.t;
  suspended : list (list NetAddress)
}.

Definition HANDSHAKE_TIMEOUT : N := 10000.

Definition PING_TIMEOUT : N := 10000.

Definition GETADDR_TIMEOUT : N := 5000.

Definition CONNECTIVITY_INTERVAL : N := 60000.

(** *** The handler monad *)

Definition M (A : Type) : Type := NetworkAgent -> A * NetworkAgent * list Effect.

#[global] Instance M_ret : MRet M := fun A a s => (a, s, []).

#[global] Instance M_bind : MBind M := fun A B k m s =>
  let '(a, s1, out1) := m s in
  let '(b, s2, out2) := k a s1 in
  (b, s2, (out1 ++ out2)%list).

(** A call on a collaborator, or a [fire]. *)
Definition emit (e : Effect) : M unit := fun s => (tt, s, [e]).

Definition get_connected : M bool := fun s => (_connected s, s, []).

Definition get_version : M (option VersionMessage) := fun s =>
  (_version s, s, []).

Definition set_connected (b : bool) : M unit := fun s =>
  (tt, {| _connected := b; _version := _version s;
          _timers := _timers s; suspended := suspended s |}, []).

Definition set_version (v : VersionMessage) : M unit := fun s =>
  (tt, {| _connected := _connected s; _version := Some v;
          _timers := _timers s; suspended := suspended s |}, []).

Definition timers (f : Timers.t -> Timers.t) : M unit := fun s =>
  (tt, {| _connected := _connected s; _version := _version s;
          _timers := f (_timers s); suspended := suspended s |}, []).

Definition get_timers : M Timers.t := fun s => (_timers s, s, []).

Definition get_suspended : M (list (list NetAddress)) := fun s =>
  (suspended s, s, []).

(** Parks the running handler at an [await]. *)
Definition suspend (addresses : list NetAddress) : M unit := fun s =>
  (tt, {| _connected := _connected s; _version := _version s;
          _timers := _timers s;
          suspended := (suspended s ++ [addresses])%list |}, []).

(** Takes the [k]-th parked handler off the list, to run its remainder. *)
Definition unpark (k : nat) : M unit := fun s =>
  (tt, {| _connected := _connected s; _version := _version s;
          _timers := _timers s; suspended := delete k (suspended s) |}, []).

Definition exec (m : M unit) (s : NetworkAgent) : NetworkAgent * list Effect :=
  let '(_, s', out) := m s in (s', out).

(** JavaScript's [ToInt32] on an integer: its value modulo 2^32, read as a
    signed 32-bit number. *)
Definition ToInt32 (z : Z) : Z := ((z + 2 ^ 31) mod 2 ^ 32 - 2 ^ 31)%Z.

(** JavaScript's [a | b] on integers: both operands go through [ToInt32],
    and the bits of the two 32-bit numbers are or-ed. *)
Definition bitor (a b : Z) : Z := Z.lor (ToInt32 a) (ToInt32 b).

(** JavaScript's string conversion of a boolean. *)
Definition string_of_bool (b : bool) : string := if b then "true" else "false".

(** ['ping_' + nonce] *)
Definition ping_key (nonce : N) : string := "ping_" +:+ pretty nonce.

(** *** Handlers *)

Definition _canAcceptMessage (e : Env) (msg : Msg) : M bool :=
  connected ← get_connected;
  let isHandshakeMsg :=
    Message.eqb (type msg) Message.VERSION
    || Message.eqb (type msg) Message.VERACK in
  (* We accept handshake messages only if we are not connected, all other
     messages otherwise. *)
  (* isHandshakeMsg != this._connected, on two booleans *)
  let accept := xorb isHandshakeMsg connected in
  (if negb accept then
     emit (console_warn_msg
             ("Discarding message from " +:+ channel e
              +:+ " - not acceptable in state connected="
              +:+ string_of_bool connected) msg)
   else mret tt);;
  mret accept.

Definition _onClose : M unit :=
  (* Clear connectivity check interval when peer disconnects. *)
  timers (Timers.clearInterval "connectivity").

Definition _handshake (e : Env) : M unit :=
  (* Kick off the handshake by telling the peer our version & blockchain
     height. *)
  emit (channel_version (blockchain_height e));;
  (* Drop the peer if it doesn't acknowledge our version message. *)
  timers (Timers.setTimeout "verack" (close_channel "verack timeout")
            HANDSHAKE_TIMEOUT);;
  (* Drop the peer if it doesn't send us a version message. *)
  timers (Timers.setTimeout "version" (close_channel "version timeout")
            HANDSHAKE_TIMEOUT).

(** The channel raises one event per message kind, so each handler is
    handed a message of its own kind: the handlers take the payload and
    [msg] is rebuilt from it. *)

Definition _onVersion (e : Env) (v : VersionMessage) : M unit :=
  let msg := MVersion v in
  (* Make sure this is a valid message in our current state. *)
  accept ← _canAcceptMessage e msg;
  if negb accept then mret tt else
  emit (console_log ("[VERSION] startHeight=" +:+ pretty (startHeight v)));;
  (* Reject duplicate version messages. *)
  stored ← get_version;
  match stored with
  | Some _ =>
    emit (console_warn
            ("Rejecting duplicate version message from " +:+ channel e));;
    emit (channel_reject "version" RejectMessage.DUPLICATE)
  | None =>
    (* Clear the version timeout. *)
    timers (Timers.clearTimeout "version");;
    (* Acknowledge the receipt of the version message. *)
    emit channel_verack;;
    (* Store the version message. *)
    set_version v
  end.

Definition _requestAddresses (e : Env) : M unit :=
  (* always get WebSocket peers; in a browser, get WebRTC peers as well *)
  let serviceMask := Z.of_N (WEBSOCKET e) in
  let serviceMask :=
    (* serviceMask |= Services.WEBRTC *)
    if isBrowser e then bitor serviceMask (Z.of_N (WEBRTC e))
    else serviceMask in
  (* Request addresses from peer. *)
  emit (channel_getaddr serviceMask);;
  (* If the peer doesn't send addresses within the specified timeout,
     fire the address event with empty addresses. *)
  timers (Timers.setTimeout "getaddr" no_addresses GETADDR_TIMEOUT).

Definition _onVerAck (e : Env) : M unit :=
  let msg := MVerAck in
  (* Make sure this is a valid message in our current state. *)
  accept ← _canAcceptMessage e msg;
  if negb accept then mret tt else
  emit (console_log "[VERACK]");;
  (* Clear the version message timeout. *)
  timers (Timers.clearTimeout "verack");;
  (* Fail if the peer didn't send a version message first. *)
  stored ← get_version;
  match stored with
  | None => emit (channel_close "verack before version")
  | Some v =>
    (* Handshake completed, connection established. *)
    set_connected true;;
    (* Tell listeners about the new peer that connected. *)
    let peer := {| peer_channel := channel e;
                   peer_version := version v;
                   peer_services := services v;
                   peer_netAddress := "TODO";
                   peer_startHeight := startHeight v |} in
    emit (fire_connected peer);;
    (* Setup regular connectivity check. *)
    timers (Timers.setInterval "connectivity" check_connectivity
              CONNECTIVITY_INTERVAL);;
    (* Request new network addresses from the peer. *)
    _requestAddresses e
  end.

(** [_onAddr] up to its [await]: the rest of the body runs in
    [_onAddr_resume], once the pool's promise has resolved. *)
Definition _onAddr (e : Env) (addresses : list NetAddress) : M unit :=
  let msg := MAddr addresses in
  (* Make sure this is a valid message in our current state. *)
  accept ← _canAcceptMessage e msg;
  if negb accept then mret tt else
  emit (console_log ("[ADDR] " +:+ pretty (length addresses) +:+ " addresses "));;
  (* Clear the getaddr timeout. *)
  timers (Timers.clearTimeout "getaddr");;
  (* Put the new addresses in the address pool. *)
  emit (addresses_push (channel e) addresses);;
  suspend addresses.

(** The statement of [_onAddr] after the [await]. *)
Definition _onAddr_resume (addresses : list NetAddress) : M unit :=
  (* Tell listeners that we have received new addresses. *)
  emit (fire_addresses addresses).

Definition _onGetAddr (e : Env) (serviceMask : N) : M unit :=
  let msg := MGetAddr serviceMask in
  (* Make sure this is a valid message in our current state. *)
  accept ← _canAcceptMessage e msg;
  if negb accept then mret tt else
  emit (console_log ("[GETADDR] serviceMask=" +:+ pretty serviceMask));;
  (* Find addresses that match the given serviceMask. *)
  let addresses := addresses_find e serviceMask in
  (* Send the addresses back to the peer. *)
  emit (channel_addr addresses).

(** [nonce] is the value of
    [Math.round(Math.random() * NumberUtils.UINT32_MAX)], drawn by the
    caller. *)
Definition _checkConnectivity (nonce : N) : M unit :=
  (* Send ping message to peer. *)
  emit (channel_ping nonce);;
  (* Drop peer if it doesn't answer with a matching pong message within the
     timeout. *)
  timers (Timers.setTimeout (ping_key nonce) (close_channel "ping timeout")
            PING_TIMEOUT).

Definition _onPing (e : Env) (nonce : N) : M unit :=
  let msg := MPing nonce in
  (* Make sure this is a valid message in our current state. *)
  accept ← _canAcceptMessage e msg;
  if negb accept then mret tt else
  emit (console_log ("[PING] nonce=" +:+ pretty nonce));;
  (* Respond with a pong message *)
  emit (channel_pong nonce).

Definition _onPong (nonce : N) : M unit :=
  emit (console_log ("[PONG] nonce=" +:+ pretty nonce));;
  (* Clear the ping timeout for this nonce. *)
  timers (Timers.clearTimeout (ping_key nonce)).

(** [new NetworkAgent(channel, blockchain, addresses)]: the fields'
    initial values, then [_handshake()]. *)
Definition constructor (e : Env) : NetworkAgent * list Effect :=
  exec (_handshake e)
       {| _connected := false; _version := None;
          _timers := Timers.new; suspended := [] |}.

(** *** The event loop *)

(** What can happen to an agent after its construction: the channel raises
    a message event or its close event, an armed timer fires, or the
    promise a parked [_onAddr] waits for resolves. *)
Inductive Event :=
| message (msg : Msg)
| close
| timeout (key : string)
| interval (key : string) (nonce : N)
| resolved (k : nat).

(** The body of a closure given to [setTimeout]. *)
Definition run_timeout (e : Env) (fn : TimeoutCallback) : M unit :=
  match fn with
  | close_channel reason => emit (channel_close reason)
  | no_addresses =>
    emit (console_warn
            ("Peer " +:+ channel e +:+ " did not send addresses when asked for"));;
    emit (fire_addresses [])
  end.

(** The body of a closure given to [setInterval]; [nonce] is what
    [_checkConnectivity] draws on this tick. *)
Definition run_interval (fn : IntervalCallback) (nonce : N) : M unit :=
  match fn with
  | check_connectivity => _checkConnectivity nonce
  end.

(** One turn of the event loop.  The subscriptions are those made in the
    constructor.  A timer can only fire while it is armed, and a one-shot
    timer is disarmed by firing. *)
Definition step (e : Env) (ev : Event) : M unit :=
  match ev with
  | message (MVersion v) => _onVersion e v
  | message MVerAck => _onVerAck e
  | message (MAddr addresses) => _onAddr e addresses
  | message (MGetAddr serviceMask) => _onGetAddr e serviceMask
  | message (MPing nonce) => _onPing e nonce
  | message (MPong nonce) => _onPong nonce
  | close => _onClose
  | timeout key =>
    r ← get_timers;
    match Timers.timeouts r !! key with
    | Some fn => timers (Timers.clearTimeout key);; run_timeout e fn
    | None => mret tt
    end
  | interval key nonce =>
    r ← get_timers;
    match Timers.intervals r !! key with
    | Some fn => run_interval fn nonce
    | None => mret tt
    end
  | resolved k =>
    parked ← get_suspended;
    match parked !! k with
    | Some addresses => unpark k;; _onAddr_resume addresses
    | None => mret tt
    end
  end.

(** A sequence of turns, from agent state [s]. *)
Fixpoint run (e : Env) (evs : list Event) (s : NetworkAgent)
  : NetworkAgent * list Effect :=
  match evs with
  | [] => (s, [])
  | ev :: evs' =>
    let '(s1, out1) := exec (step e ev) s in
    let '(s2, out2) := run e evs' s1 in
    (s2, (out1 ++ out2)%list)
  end.

(** The agent's whole life: construction, then the events [evs]. *)
Definition lifetime (e : Env) (evs : list Event) : NetworkAgent * list Effect :=
  let '(s0, out0) := constructor e in
  let '(s, out) := run e evs s0 in
  (s, (out0 ++ out)%list).

(** The states an agent can be in. *)
Definition reachable (e : Env) (s : NetworkAgent) : Prop :=
  ∃ evs, (lifetime e evs).1 = s.

(** ** Observations *)

(** [isHandshakeMsg] of [_canAcceptMessage]. *)
Definition isHandshakeKind (msg : Msg) : bool :=
  match type msg with
  | Message.VERSION | Message.VERACK => true
  | _ => false
  end.

(** The value [_canAcceptMessage(msg)] returns in state [s]. *)
Definition acceptable (e : Env) (msg : Msg) (s : NetworkAgent) : bool :=
  (_canAcceptMessage e msg s).1.1.

(** The warning [_canAcceptMessage] prints for a message it turns down. *)
Definition discarding (e : Env) (msg : Msg) (s : NetworkAgent) : Effect :=
  console_warn_msg
    ("Discarding message from " +:+ channel e
     +:+ " - not acceptable in state connected="
     +:+ string_of_bool (_connected s)) msg.

(** The [connected] events among some effects. *)
Definition connected_fired (out : list Effect) : list Peer :=
  omap (fun eff => match eff with fire_connected p => Some p | _ => None end) out.

(** The [addresses] events among some effects. *)
Definition addresses_fired (out : list Effect) : list (list NetAddress) :=
  omap (fun eff => match eff with fire_addresses l => Some l | _ => None end) out.

(** The reasons of the [channel.close] calls among some effects. *)
Definition closes (out : list Effect) : list string :=
  omap (fun eff => match eff with channel_close r => Some r | _ => None end) out.

(** Replaces the timer registry of [s]. *)
Definition with_timers (r : Timers.t) (s : NetworkAgent) : NetworkAgent :=
  {| _connected := _connected s; _version := _version s;
     _timers := r; suspended := suspended s |}.

(** The [Peer] the agent builds from a stored version. *)
Definition peer_of (e : Env) (v : VersionMessage) : Peer :=
  {| peer_channel := channel e; peer_version := version v;
     peer_services := services v; peer_netAddress := "TODO";
     peer_startHeight := startHeight v |}.

(** The line the getaddr timer's closure prints before it fires the empty
    list. *)
Definition getaddr_timeout_warning (e : Env) : Effect :=
  console_warn ("Peer " +:+ channel e +:+ " did not send addresses when asked for").

(** The kind of [ev], when it is a version or verack message that the gate
    lets through in state [s]. *)
Definition accepted_handshake (e : Env) (ev : Event) (s : NetworkAgent)
  : list Message.Type_ :=
  match ev with
  | message msg =>
    if isHandshakeKind msg && acceptable e msg s then [type msg] else []
  | _ => []
  end.

(** The kinds of the version and verack messages the gate lets through in
    the course of [evs], in order of arrival. *)
Fixpoint handshake_log (e : Env) (evs : list Event) (s : NetworkAgent)
  : list Message.Type_ :=
  match evs with
  | [] => []
  | ev :: evs' =>
    (accepted_handshake e ev s
     ++ handshake_log e evs' (exec (step e ev) s).1)%list
  end.

(** The accepted handshake messages of a life that ends connected: [k]
    veracks that came too early, the version that was stored, [j] further
    versions, and the verack that completed the handshake. *)
Definition handshake_shape (k j : nat) : list Message.Type_ :=
  (replicate k Message.VERACK
   ++ Message.VERSION :: replicate j Message.VERSION ++ [Message.VERACK])%list.

(** ** Invariants and case analyses *)

(** Facts about the fields that every turn of the event loop keeps. *)
Record wf (s : NetworkAgent) : Prop := {
  (* connected only with a stored version *)
  wf_version : _connected s = true -> is_Some (_version s);
  (* only the name [getaddr] carries the closure that fires the empty
     list, and it carries no other *)
  wf_getaddr_key : forall key,
    Timers.timeouts (_timers s) !! key = Some no_addresses -> key = "getaddr";
  wf_getaddr_fn : forall fn,
    Timers.timeouts (_timers s) !! "getaddr" = Some fn -> fn = no_addresses;
  (* before the handshake completes nothing of the later phases exists *)
  wf_idle : _connected s = false ->
    Timers.timeouts (_timers s) !! "getaddr" = None
    /\ Timers.intervals (_timers s) !! "connectivity" = None
    /\ suspended s = [];
  (* while the getaddr timer is armed no [_onAddr] is parked *)
  wf_round : is_Some (Timers.timeouts (_timers s) !! "getaddr") ->
    suspended s = []
}.

(** How one turn bears on the handshake: not at all, or it stores the first
    version, or rejects a further one, or closes on a verack that came too
    early, or completes the handshake. *)
Inductive handshake_move (e : Env) (ev : Event) (s s' : NetworkAgent)
  (out : list Effect) : Prop :=
| move_none :
    accepted_handshake e ev s = [] ->
    _connected s' = _connected s -> _version s' = _version s ->
    connected_fired out = [] ->
    handshake_move e ev s s' out
| move_store v :
    ev = message (MVersion v) ->
    _connected s = false -> _version s = None ->
    _connected s' = false -> _version s' = Some v ->
    connected_fired out = [] ->
    handshake_move e ev s s' out
| move_duplicate v stored :
    ev = message (MVersion v) ->
    _connected s = false -> _version s = Some stored ->
    _connected s' = false -> _version s' = Some stored ->
    connected_fired out = [] ->
    handshake_move e ev s s' out
| move_early :
    ev = message MVerAck ->
    _connected s = false -> _version s = None ->
    _connected s' = false -> _version s' = None ->
    connected_fired out = [] ->
    handshake_move e ev s s' out
| move_connect v :
    ev = message MVerAck ->
    _connected s = false -> _version s = Some v ->
    _connected s' = true -> _version s' = Some v ->
    connected_fired out = [peer_of e v] ->
    handshake_move e ev s s' out.


(** Where the handshake stands after the events [evs]. *)
Inductive handshake_state (e : Env) (evs : list Event) : Prop :=
| awaiting_version k :
    _connected (lifetime e evs).1 = false ->
    _version (lifetime e evs).1 = None ->
    connected_fired (lifetime e evs).2 = [] ->
    handshake_log e evs (constructor e).1 = replicate k Message.VERACK ->
    handshake_state e evs
| awaiting_verack v k j :
    _connected (lifetime e evs).1 = false ->
    _version (lifetime e evs).1 = Some v ->
    connected_fired (lifetime e evs).2 = [] ->
    handshake_log e evs (constructor e).1
    = (replicate k Message.VERACK
       ++ Message.VERSION :: replicate j Message.VERSION)%list ->
    handshake_state e evs
| handshake_done v k j :
    _connected (lifetime e evs).1 = true ->
    _version (lifetime e evs).1 = Some v ->
    connected_fired (lifetime e evs).2 = [peer_of e v] ->
    handshake_log e evs (constructor e).1 = handshake_shape k j ->
    handshake_state e evs.

(** ** The wording of the specification *)

(** Modelled from the spec: the channel, whose source is missing, raises no
    message event once it has been asked to close.  The events [evs] are
    such a life when no message comes after a [channel.close] call of the
    agent. *)
Definition channel_stays_closed (e : Env) (evs : list Event) : Prop :=
  forall pre msg post,
    evs = (pre ++ message msg :: post)%list ->
    closes (lifetime e pre).2 = [].

(** C2 as the specification words it: whenever [connected] has been fired,
    the handshake messages accepted in that life are one version and one
    verack, in this order. *)
Definition connected_after_one_version_one_verack : Prop :=
  forall e evs,
    channel_stays_closed e evs ->
    connected_fired (lifetime e evs).2 <> [] ->
    handshake_log e evs (constructor e).1 = [Message.VERSION; Message.VERACK].



(** ** Sample agents *)

Definition env0 : Env :=
  {| channel := "peer-1"; blockchain_height := 100;
     addresses_find := fun _ => []; isBrowser := false;
     WEBSOCKET := 1; WEBRTC := 2 |}.

(** The same in a browser. *)
Definition env_browser : Env :=
  {| channel := "peer-2"; blockchain_height := 7;
     addresses_find := fun _ => []; isBrowser := true;
     WEBSOCKET := 1; WEBRTC := 2 |}.

Definition version0 : VersionMessage :=
  {| version := 1; services := 1; startHeight := 250 |}.

Definition version1 : VersionMessage :=
  {| version := 2; services := 3; startHeight := 7 |}.

(** Just constructed. *)
Definition agent_new : NetworkAgent := (lifetime env0 []).1.

(** Has the peer's version, awaits its verack. *)
Definition agent_versioned : NetworkAgent :=
  (lifetime env0 [message (MVersion version0)]).1.

(** After the handshake. *)
Definition agent_connected : NetworkAgent :=
  (lifetime env0 [message (MVersion version0); message MVerAck]).1.

(** A peer that sends its version twice, then its verack. *)
Definition repeating_peer : list Event :=
  [message (MVersion version0); message (MVersion version1); message MVerAck].

(** ** Tactics *)

(** Rewrites the lookups in registries updated by [insert] and [delete]. *)
Ltac lookups :=
  repeat match goal with
  | H : context [delete _ _ !! _] |- _ => rewrite lookup_delete in H
  | H : context [<[_:=_]> _ !! _] |- _ => rewrite lookup_insert in H
  | |- context [delete _ _ !! _] => rewrite lookup_delete
  | |- context [<[_:=_]> _ !! _] => rewrite lookup_insert
  end.

(** Splits a goal [wf _] on a state given by a handler equation and settles
    its fields from those of the state before. *)
Ltac wf_fields :=
  split; simpl; intros; lookups; repeat case_decide; simplify_eq;
  try (by eauto); try congruence;
  try (match goal with
       | Hi : _connected ?s = false -> _, H : _connected ?s = false |- _ =>
         destruct (Hi H) as (? & ? & ?)
       end; by repeat split);
  try match goal with H : is_Some None |- _ => by destruct H end.

(** ** More observations *)

(** The message [ev] brings, when the gate lets it through in state [s]. *)
Definition accepted_now (e : Env) (ev : Event) (s : NetworkAgent) : list Msg :=
  match ev with
  | message msg => if acceptable e msg s then [msg] else []
  | _ => []
  end.

(** The messages the gate lets through in the course of [evs], in order of
    arrival. *)
Fixpoint accepted_log (e : Env) (evs : list Event) (s : NetworkAgent)
  : list Msg :=
  match evs with
  | [] => []
  | ev :: evs' =>
    (accepted_now e ev s ++ accepted_log e evs' (exec (step e ev) s).1)%list
  end.

(** The pool call an addr message leads to. *)
Definition addr_push (e : Env) (msg : Msg) : option (string * list NetAddress) :=
  match msg with MAddr l => Some (channel e, l) | _ => None end.

(** The nonces of the pongs sent. *)
Definition pongs_sent (out : list Effect) : list N :=
  omap (fun eff => match eff with channel_pong n => Some n | _ => None end) out.

(** The nonces of the pings sent. *)
Definition pings_sent (out : list Effect) : list N :=
  omap (fun eff => match eff with channel_ping n => Some n | _ => None end) out.

(** The address lists sent to the peer. *)
Definition addrs_sent (out : list Effect) : list (list NetAddress) :=
  omap (fun eff => match eff with channel_addr l => Some l | _ => None end) out.

(** The service masks of the getaddr requests sent. *)
Definition getaddrs_sent (out : list Effect) : list Z :=
  omap (fun eff => match eff with channel_getaddr m => Some m | _ => None end) out.

(** The heights of the version announcements sent. *)
Definition versions_sent (out : list Effect) : list N :=
  omap (fun eff => match eff with channel_version h => Some h | _ => None end) out.

(** The veracks sent. *)
Definition veracks_sent (out : list Effect) : list unit :=
  omap (fun eff => match eff with channel_verack => Some tt | _ => None end) out.

(** The rejects sent. *)
Definition rejects_sent (out : list Effect) : list (string * RejectMessage.Code) :=
  omap (fun eff => match eff with
                   | channel_reject t c => Some (t, c)
                   | _ => None
                   end) out.

(** The lists handed to the address pool, each with its source. *)
Definition pushed (out : list Effect) : list (string * list NetAddress) :=
  omap (fun eff => match eff with
                   | addresses_push c l => Some (c, l)
                   | _ => None
                   end) out.

(** The nonce of a ping message. *)
Definition ping_nonce (msg : Msg) : option N :=
  match msg with MPing n => Some n | _ => None end.

(** The answer of the pool to a getaddr message. *)
Definition getaddr_answer (e : Env) (msg : Msg) : option (list NetAddress) :=
  match msg with MGetAddr mask => Some (addresses_find e mask) | _ => None end.

(** The version messages among some messages. *)
Definition version_messages (msgs : list Msg) : list VersionMessage :=
  omap (fun msg => match msg with MVersion v => Some v | _ => None end) msgs.


(** [serviceMask] of [_requestAddresses]. *)
Definition requested_services (e : Env) : Z :=
  if isBrowser e then bitor (Z.of_N (WEBSOCKET e)) (Z.of_N (WEBRTC e))
  else Z.of_N (WEBSOCKET e).

(** What the agent does only once the handshake is complete: pings, pongs,
    getaddr requests, addr replies, calls on the pool and events. *)
Definition after_handshake (eff : Effect) : bool :=
  match eff with
  | channel_ping _ | channel_pong _ | channel_getaddr _ | channel_addr _
  | addresses_push _ _ | fire_connected _ | fire_addresses _ => true
  | _ => false
  end.

(** The closures the agent ever hands to [setTimeout], each under its
    names. *)
Definition expected_timeout (key : string) (fn : TimeoutCallback) : Prop :=
  (key = "verack" /\ fn = close_channel "verack timeout")
  \/ (key = "version" /\ fn = close_channel "version timeout")
  \/ (key = "getaddr" /\ fn = no_addresses)
  \/ (exists nonce, key = ping_key nonce /\ fn = close_channel "ping timeout").

(** The names in the registry are the agent's own, and the handshake timers
    are gone once the step they wait for has been taken. *)
Record timers_wf (s : NetworkAgent) : Prop := {
  twf_timeouts : forall key fn,
    Timers.timeouts (_timers s) !! key = Some fn -> expected_timeout key fn;
  twf_intervals : forall key fn,
    Timers.intervals (_timers s) !! key = Some fn -> key = "connectivity";
  twf_version : is_Some (_version s) ->
    Timers.timeouts (_timers s) !! "version" = None;
  twf_verack : _connected s = true ->
    Timers.timeouts (_timers s) !! "verack" = None
}.

(** The reasons the agent gives when it closes the channel. *)
Definition close_reasons : list string :=
  ["verack timeout"; "version timeout"; "ping timeout"; "verack before version"].

(** Neither [ev] is a version message nor the firing of the [version]
    timer. *)
Definition version_pending (ev : Event) : bool :=
  match ev with
  | message (MVersion _) => false
  | timeout key => negb (String.eqb key "version")
  | _ => true
  end.

(** Neither [ev] is a verack message nor the firing of the [verack]
    timer. *)
Definition verack_pending (ev : Event) : bool :=
  match ev with
  | message MVerAck => false
  | timeout key => negb (String.eqb key "verack")
  | _ => true
  end.

(** Neither [ev] is a pong with [nonce] nor the firing of the timer of
    [nonce]. *)
Definition ping_pending (nonce : N) (ev : Event) : bool :=
  match ev with
  | message (MPong n) => negb (N.eqb n nonce)
  | timeout key => negb (String.eqb key (ping_key nonce))
  | _ => true
  end.

(** * Properties *)

(** ** The answer of the gate *)

Lemma acceptable_spec e msg s :
  acceptable e msg s = xorb (isHandshakeKind msg) (_connected s).
Proof. destruct msg, s as [[] ? ? ?]; reflexivity. Qed.

Lemma acceptable_handshake e msg s :
  isHandshakeKind msg = true -> acceptable e msg s = true ->
  _connected s = false.
Proof. rewrite acceptable_spec. intros ->. by destruct (_connected s). Qed.

Lemma acceptable_regular e msg s :
  isHandshakeKind msg = false -> acceptable e msg s = true ->
  _connected s = true.
Proof. rewrite acceptable_spec. by intros ->. Qed.

(** ** Equations of the handlers

    What each turn of the event loop does, case by case. *)

Section Equations.
Context (e : Env).

Lemma step_version_first v s :
  _connected s = false -> _version s = None ->
  exec (step e (message (MVersion v))) s =
  ({| _connected := false; _version := Some v;
      _timers := Timers.clearTimeout "version" (_timers s);
      suspended := suspended s |},
   [console_log ("[VERSION] startHeight=" +:+ pretty (startHeight v));
    channel_verack]).
Proof. destruct s; simpl; intros -> ->; reflexivity. Qed.

Lemma step_version_duplicate v s :
  _connected s = false -> is_Some (_version s) ->
  exec (step e (message (MVersion v))) s =
  (s, [console_log ("[VERSION] startHeight=" +:+ pretty (startHeight v));
       console_warn ("Rejecting duplicate version message from " +:+ channel e);
       channel_reject "version" RejectMessage.DUPLICATE]).
Proof. destruct s; simpl; intros -> [? ->]; reflexivity. Qed.

Lemma step_verack_early s :
  _connected s = false -> _version s = None ->
  exec (step e (message MVerAck)) s =
  (with_timers (Timers.clearTimeout "verack" (_timers s)) s,
   [console_log "[VERACK]"; channel_close "verack before version"]).
Proof. destruct s; simpl; intros -> ->; reflexivity. Qed.

Lemma step_verack_connects v s :
  _connected s = false -> _version s = Some v ->
  exec (step e (message MVerAck)) s =
  ({| _connected := true; _version := Some v;
      _timers :=
        Timers.setTimeout "getaddr" no_addresses GETADDR_TIMEOUT
          (Timers.setInterval "connectivity" check_connectivity
             CONNECTIVITY_INTERVAL
             (Timers.clearTimeout "verack" (_timers s)));
      suspended := suspended s |},
   [console_log "[VERACK]";
    fire_connected {| peer_channel := channel e; peer_version := version v;
                      peer_services := services v; peer_netAddress := "TODO";
                      peer_startHeight := startHeight v |};
    channel_getaddr (if isBrowser e
                     then bitor (Z.of_N (WEBSOCKET e)) (Z.of_N (WEBRTC e))
                     else Z.of_N (WEBSOCKET e))]).
Proof. destruct s; simpl; intros -> ->; reflexivity. Qed.

(** Every handler but [_onPong] starts with the gate, and returns at once
    when it answers no. *)
Lemma step_discarded msg s :
  type msg <> Message.PONG -> acceptable e msg s = false ->
  exec (step e (message msg)) s = (s, [discarding e msg s]).
Proof.
  destruct s as [[] ? ? ?], msg; simpl; intros Hpong Hacc;
    try discriminate; try reflexivity; by destruct Hpong.
Qed.

Lemma step_addr addresses s :
  _connected s = true ->
  exec (step e (message (MAddr addresses))) s =
  ({| _connected := true; _version := _version s;
      _timers := Timers.clearTimeout "getaddr" (_timers s);
      suspended := (suspended s ++ [addresses])%list |},
   [console_log ("[ADDR] " +:+ pretty (length addresses) +:+ " addresses ");
    addresses_push (channel e) addresses]).
Proof. destruct s; simpl; intros ->; reflexivity. Qed.

Lemma step_getaddr serviceMask s :
  _connected s = true ->
  exec (step e (message (MGetAddr serviceMask))) s =
  (s, [console_log ("[GETADDR] serviceMask=" +:+ pretty serviceMask);
       channel_addr (addresses_find e serviceMask)]).
Proof. destruct s; simpl; intros ->; reflexivity. Qed.

Lemma step_ping nonce s :
  _connected s = true ->
  exec (step e (message (MPing nonce))) s =
  (s, [console_log ("[PING] nonce=" +:+ pretty nonce); channel_pong nonce]).
Proof. destruct s; simpl; intros ->; reflexivity. Qed.

(** [_onPong] does not consult the gate: it acts the same in every
    state. *)
Lemma step_pong nonce s :
  exec (step e (message (MPong nonce))) s =
  (with_timers (Timers.clearTimeout (ping_key nonce) (_timers s)) s,
   [console_log ("[PONG] nonce=" +:+ pretty nonce)]).
Proof. reflexivity. Qed.

Lemma step_close s :
  exec (step e close) s =
  (with_timers (Timers.clearInterval "connectivity" (_timers s)) s, []).
Proof. reflexivity. Qed.

Lemma step_timeout_armed key fn s :
  Timers.timeouts (_timers s) !! key = Some fn ->
  exec (step e (timeout key)) s =
  (with_timers (Timers.clearTimeout key (_timers s)) s,
   match fn with
   | close_channel reason => [channel_close reason]
   | no_addresses =>
     [console_warn ("Peer " +:+ channel e
                    +:+ " did not send addresses when asked for");
      fire_addresses []]
   end).
Proof.
  intros H. cbv [step exec mbind M_bind get_timers]. rewrite H.
  by destruct fn.
Qed.

Lemma step_timeout_unarmed key s :
  Timers.timeouts (_timers s) !! key = None ->
  exec (step e (timeout key)) s = (s, []).
Proof.
  intros H. cbv [step exec mbind M_bind get_timers]. by rewrite H.
Qed.

Lemma step_interval_armed key nonce s :
  is_Some (Timers.intervals (_timers s) !! key) ->
  exec (step e (interval key nonce)) s =
  (with_timers
     (Timers.setTimeout (ping_key nonce) (close_channel "ping timeout")
        PING_TIMEOUT (_timers s)) s,
   [channel_ping nonce]).
Proof.
  intros [[] H]. cbv [step exec mbind M_bind get_timers]. by rewrite H.
Qed.

Lemma step_interval_unarmed key nonce s :
  Timers.intervals (_timers s) !! key = None ->
  exec (step e (interval key nonce)) s = (s, []).
Proof.
  intros H. cbv [step exec mbind M_bind get_timers]. by rewrite H.
Qed.

Lemma step_resolved_parked k addresses s :
  suspended s !! k = Some addresses ->
  exec (step e (resolved k)) s =
  ({| _connected := _connected s; _version := _version s;
      _timers := _timers s; suspended := delete k (suspended s) |},
   [fire_addresses addresses]).
Proof.
  intros H. cbv [step exec mbind M_bind get_suspended]. by rewrite H.
Qed.

Lemma step_resolved_none k s :
  suspended s !! k = None ->
  exec (step e (resolved k)) s = (s, []).
Proof.
  intros H. cbv [step exec mbind M_bind get_suspended]. by rewrite H.
Qed.
End Equations.

(** ** Runs *)

Lemma run_app e evs1 evs2 s :
  run e (evs1 ++ evs2) s =
  let '(s1, out1) := run e evs1 s in
  let '(s2, out2) := run e evs2 s1 in
  (s2, (out1 ++ out2)%list).
Proof.
  revert s. induction evs1 as [|ev evs1 IH]; intros s; simpl.
  - by destruct (run e evs2 s).
  - destruct (exec (step e ev) s) as [s1 out1]. rewrite IH.
    destruct (run e evs1 s1) as [s2 out2], (run e evs2 s2) as [s3 out3].
    by rewrite (assoc_L (++)).
Qed.

Lemma run_singleton e ev s : run e [ev] s = exec (step e ev) s.
Proof.
  simpl. destruct (exec (step e ev) s) as [s1 out1]. by rewrite app_nil_r.
Qed.

(** One more turn at the end of a life. *)
Lemma lifetime_snoc e evs ev :
  lifetime e (evs ++ [ev]) =
  let '(s, out) := lifetime e evs in
  let '(s', out') := exec (step e ev) s in
  (s', (out ++ out')%list).
Proof.
  unfold lifetime. destruct (constructor e) as [s0 out0].
  rewrite run_app. destruct (run e evs s0) as [s out].
  rewrite run_singleton. destruct (exec (step e ev) s) as [s' out'].
  by rewrite (assoc_L (++)).
Qed.

Lemma reachable_constructor e : reachable e (constructor e).1.
Proof. exists []. unfold lifetime. by destruct (constructor e). Qed.

Lemma reachable_step e ev s :
  reachable e s -> reachable e (exec (step e ev) s).1.
Proof.
  intros [evs <-]. exists (evs ++ [ev])%list. rewrite lifetime_snoc.
  destruct (lifetime e evs) as [s out]; simpl.
  by destruct (exec (step e ev) s).
Qed.

(** Induction on the life that led to a state. *)
Lemma reachable_ind e (P : NetworkAgent -> Prop) :
  P (constructor e).1 ->
  (forall ev s, reachable e s -> P s -> P (exec (step e ev) s).1) ->
  forall s, reachable e s -> P s.
Proof.
  intros Hinit Hstep s [evs <-].
  induction evs as [|ev evs IH] using rev_ind.
  - unfold lifetime. destruct (constructor e) as [s0 out0]. exact Hinit.
  - rewrite lifetime_snoc.
    specialize (Hstep ev (lifetime e evs).1 (ex_intro _ evs eq_refl) IH).
    destruct (lifetime e evs) as [s out]; simpl in *.
    by destruct (exec (step e ev) s).
Qed.

(** ** Timer names *)

Lemma ping_key_inj : Inj (=) (=) ping_key.
Proof. intros n m H. unfold ping_key in H. by simplify_eq. Qed.

Lemma ping_key_not_getaddr n : ping_key n <> "getaddr".
Proof. discriminate. Qed.

Lemma ping_key_not_version n : ping_key n <> "version".
Proof. discriminate. Qed.

Lemma ping_key_not_verack n : ping_key n <> "verack".
Proof. discriminate. Qed.

(** ** What holds of every agent *)

Lemma wf_constructor e : wf (constructor e).1.
Proof.
  split; simpl.
  - done.
  - intros key H. rewrite !lookup_insert in H.
    repeat case_decide; simplify_eq.
  - intros fn H. by vm_compute in H.
  - done.
  - done.
Qed.

Lemma wf_step e ev s : wf s -> wf (exec (step e ev) s).1.
Proof.
  intros Hwf. pose proof Hwf as [Hver Hkey Hfn Hidle Hround].
  destruct ev as [msg| |key|key nonce|k].
  - (* a message *)
    destruct (_connected s) eqn:Hc.
    + destruct msg as [v| |addresses|mask|nonce|nonce].
      * rewrite step_discarded; [done|done|by rewrite acceptable_spec, Hc].
      * rewrite step_discarded; [done|done|by rewrite acceptable_spec, Hc].
      * rewrite step_addr by done. wf_fields.
      * rewrite step_getaddr by done. done.
      * rewrite step_ping by done. done.
      * rewrite step_pong. wf_fields.
    + destruct (Hidle eq_refl) as (Hg & Hi & Hs).
      destruct msg as [v| |addresses|mask|nonce|nonce].
      * destruct (_version s) as [v'|] eqn:Hv.
        -- rewrite step_version_duplicate by eauto. done.
        -- rewrite step_version_first by done. wf_fields.
      * destruct (_version s) as [v'|] eqn:Hv.
        -- rewrite (step_verack_connects _ v') by done. wf_fields.
        -- rewrite step_verack_early by done. wf_fields.
      * rewrite step_discarded; [done|done|by rewrite acceptable_spec, Hc].
      * rewrite step_discarded; [done|done|by rewrite acceptable_spec, Hc].
      * rewrite step_discarded; [done|done|by rewrite acceptable_spec, Hc].
      * rewrite step_pong. wf_fields.
  - rewrite step_close. wf_fields.
  - destruct (Timers.timeouts (_timers s) !! key) as [fn|] eqn:Hk.
    + rewrite (step_timeout_armed _ _ fn) by done. wf_fields.
    + rewrite step_timeout_unarmed by done. done.
  - destruct (Timers.intervals (_timers s) !! key) as [fn|] eqn:Hk.
    + rewrite step_interval_armed by eauto. wf_fields.
    + rewrite step_interval_unarmed by done. done.
  - destruct (suspended s !! k) as [l|] eqn:Hk.
    + rewrite (step_resolved_parked _ _ l) by done.
      assert (suspended s <> []) as Hne by (by intros Heq; rewrite Heq in Hk).
      wf_fields. by destruct Hne; apply Hround.
    + rewrite step_resolved_none by done. done.
Qed.

Lemma reachable_wf e s : reachable e s -> wf s.
Proof.
  revert s. apply reachable_ind.
  - apply wf_constructor.
  - intros ev s _. apply wf_step.
Qed.

(** ** The handshake, turn by turn *)

(** C8: on the first acceptable version message (no version stored yet) the
    agent cancels the [version] timer, sends a verack and stores the
    message; the connected flag stays false and nothing is fired. *)
Theorem first_version_is_stored e v s :
  acceptable e (MVersion v) s = true ->
  _version s = None ->
  let '(s', out) := exec (step e (message (MVersion v))) s in
  out = [console_log ("[VERSION] startHeight=" +:+ pretty (startHeight v));
         channel_verack]
  /\ _timers s' = Timers.clearTimeout "version" (_timers s)
  /\ _version s' = Some v
  /\ _connected s' = false
  /\ suspended s' = suspended s
  /\ connected_fired out = [] /\ addresses_fired out = [].
Proof.
  intros Hc%acceptable_handshake Hv; [|done].
  by rewrite step_version_first.
Qed.

Lemma first_version_is_stored_witness :
  acceptable env0 (MVersion version0) agent_new = true
  /\ _version agent_new = None
  /\ let '(s', out) := exec (step env0 (message (MVersion version0))) agent_new in
     out = [console_log "[VERSION] startHeight=250"; channel_verack]
     /\ _timers s' = Timers.clearTimeout "version" (_timers agent_new)
     /\ _version s' = Some version0
     /\ _connected s' = false
     /\ suspended s' = suspended agent_new
     /\ connected_fired out = [] /\ addresses_fired out = [].
Proof.
  split; [reflexivity|]. split; [reflexivity|].
  apply (first_version_is_stored env0 version0 agent_new); reflexivity.
Defined.

(** C5: an acceptable version message that arrives when a version is
    already stored is answered with a reject of message type "version" and
    code DUPLICATE, and nothing else happens: the stored version and every
    other field stay as they were, whatever the new message contains, and
    the channel is not closed. *)
Theorem duplicate_version_is_rejected e v stored s :
  acceptable e (MVersion v) s = true ->
  _version s = Some stored ->
  let '(s', out) := exec (step e (message (MVersion v))) s in
  out = [console_log ("[VERSION] startHeight=" +:+ pretty (startHeight v));
         console_warn ("Rejecting duplicate version message from " +:+ channel e);
         channel_reject "version" RejectMessage.DUPLICATE]
  /\ s' = s
  /\ _version s' = Some stored
  /\ closes out = [].
Proof.
  intros Hc%acceptable_handshake Hv; [|done].
  by rewrite step_version_duplicate.
Qed.

Lemma duplicate_version_is_rejected_witness :
  acceptable env0 (MVersion version1) agent_versioned = true
  /\ _version agent_versioned = Some version0
  /\ let '(s', out) := exec (step env0 (message (MVersion version1))) agent_versioned in
     out = [console_log "[VERSION] startHeight=7";
            console_warn "Rejecting duplicate version message from peer-1";
            channel_reject "version" RejectMessage.DUPLICATE]
     /\ s' = agent_versioned
     /\ _version s' = Some version0
     /\ closes out = [].
Proof.
  split; [reflexivity|]. split; [reflexivity|].
  apply (duplicate_version_is_rejected env0 version1 version0 agent_versioned);
    reflexivity.
Defined.

(** C4: an acceptable verack that arrives while no version is stored makes
    the agent close the channel with reason "verack before version" and
    return: the connected flag stays false, no [connected] event is fired,
    no interval is set, no getaddr request is sent and no timer is armed
    (the [verack] timer, cleared before the test, is the only change). *)
Theorem verack_before_version_closes e s :
  acceptable e MVerAck s = true ->
  _version s = None ->
  let '(s', out) := exec (step e (message MVerAck)) s in
  out = [console_log "[VERACK]"; channel_close "verack before version"]
  /\ s' = with_timers (Timers.clearTimeout "verack" (_timers s)) s
  /\ _connected s' = false
  /\ connected_fired out = []
  /\ Timers.intervals (_timers s') = Timers.intervals (_timers s)
  /\ Timers.timeouts (_timers s') = delete "verack" (Timers.timeouts (_timers s))
  /\ (forall mask, channel_getaddr mask ∉ out).
Proof.
  intros Hc%acceptable_handshake Hv; [|done].
  rewrite step_verack_early by done. repeat split; try done.
  intros mask Hin. by repeat (apply elem_of_cons in Hin as [?|Hin]; [done|]);
    apply elem_of_nil in Hin.
Qed.

Lemma verack_before_version_closes_witness :
  acceptable env0 MVerAck agent_new = true
  /\ _version agent_new = None
  /\ let '(s', out) := exec (step env0 (message MVerAck)) agent_new in
     out = [console_log "[VERACK]"; channel_close "verack before version"]
     /\ s' = with_timers (Timers.clearTimeout "verack" (_timers agent_new)) agent_new
     /\ _connected s' = false
     /\ connected_fired out = []
     /\ Timers.intervals (_timers s') = Timers.intervals (_timers agent_new)
     /\ Timers.timeouts (_timers s')
        = delete "verack" (Timers.timeouts (_timers agent_new))
     /\ (forall mask, channel_getaddr mask ∉ out).
Proof.
  split; [reflexivity|]. split; [reflexivity|].
  apply (verack_before_version_closes env0 agent_new); reflexivity.
Defined.

Lemma step_handshake_move e ev s :
  handshake_move e ev s (exec (step e ev) s).1 (exec (step e ev) s).2.
Proof.
  destruct ev as [msg| |key|key nonce|k].
  - destruct (_connected s) eqn:Hc.
    + assert (accepted_handshake e (message msg) s = []) as Hgate.
      { unfold accepted_handshake. rewrite acceptable_spec, Hc.
        by destruct (isHandshakeKind msg). }
      destruct msg as [v| |addresses|mask|nonce|nonce].
      * rewrite step_discarded; [|done|by rewrite acceptable_spec, Hc].
        by apply move_none.
      * rewrite step_discarded; [|done|by rewrite acceptable_spec, Hc].
        by apply move_none.
      * rewrite step_addr by done. by apply move_none.
      * rewrite step_getaddr by done. by apply move_none.
      * rewrite step_ping by done. by apply move_none.
      * rewrite step_pong. by apply move_none.
    + destruct msg as [v| |addresses|mask|nonce|nonce].
      * destruct (_version s) as [v'|] eqn:Hv.
        -- rewrite step_version_duplicate by eauto.
           by apply (move_duplicate _ _ _ _ _ v v').
        -- rewrite step_version_first by done. by apply (move_store _ _ _ _ _ v).
      * destruct (_version s) as [v'|] eqn:Hv.
        -- rewrite (step_verack_connects _ v') by done.
           by apply (move_connect _ _ _ _ _ v').
        -- rewrite step_verack_early by done. by apply move_early.
      * rewrite step_discarded; [|done|by rewrite acceptable_spec, Hc].
        by apply move_none.
      * rewrite step_discarded; [|done|by rewrite acceptable_spec, Hc].
        by apply move_none.
      * rewrite step_discarded; [|done|by rewrite acceptable_spec, Hc].
        by apply move_none.
      * rewrite step_pong. by apply move_none.
  - rewrite step_close. by apply move_none.
  - destruct (Timers.timeouts (_timers s) !! key) as [fn|] eqn:Hk.
    + rewrite (step_timeout_armed _ _ fn) by done.
      apply move_none; try done. by destruct fn.
    + rewrite step_timeout_unarmed by done. by apply move_none.
  - destruct (Timers.intervals (_timers s) !! key) as [fn|] eqn:Hk.
    + rewrite step_interval_armed by eauto. by apply move_none.
    + rewrite step_interval_unarmed by done. by apply move_none.
  - destruct (suspended s !! k) as [l|] eqn:Hk.
    + rewrite (step_resolved_parked _ _ l) by done. by apply move_none.
    + rewrite step_resolved_none by done. by apply move_none.
Qed.

(** C9: every turn of the event loop keeps "connected implies a version is
    stored"; the flag is raised only in a state where the version is already
    stored, and a stored version is never cleared nor replaced. *)
Theorem connected_has_version e ev s :
  (_connected s = true -> is_Some (_version s)) ->
  let s' := (exec (step e ev) s).1 in
  (_connected s' = true -> is_Some (_version s'))
  /\ (_connected s = false -> _connected s' = true -> is_Some (_version s))
  /\ (forall v, _version s = Some v -> _version s' = Some v).
Proof.
  intros Hinv s'.
  destruct (step_handshake_move e ev s)
    as [_ Hc' Hv' _|v _ Hc Hv Hc' Hv' _|v w _ Hc Hv Hc' Hv' _
       |_ Hc Hv Hc' Hv' _|v _ Hc Hv Hc' Hv' _];
    fold s' in Hc', Hv'; rewrite Hc', Hv'.
  - split; [done|]. split; [congruence|done].
  - split; [done|]. split; [done|congruence].
  - split; [eauto|]. split; [done|congruence].
  - split; [done|]. split; [done|congruence].
  - split; [eauto|]. split; [rewrite Hv; eauto|congruence].
Qed.

Lemma connected_has_version_witness :
  (_connected agent_versioned = true -> is_Some (_version agent_versioned))
  /\ let s' := (exec (step env0 (message MVerAck)) agent_versioned).1 in
     (_connected s' = true -> is_Some (_version s'))
     /\ (_connected agent_versioned = false -> _connected s' = true ->
         is_Some (_version agent_versioned))
     /\ (forall v, _version agent_versioned = Some v -> _version s' = Some v).
Proof.
  assert (_connected agent_versioned = true -> is_Some (_version agent_versioned))
    as H by (intros _; eexists; reflexivity).
  split; [exact H|].
  exact (connected_has_version env0 (message MVerAck) agent_versioned H).
Defined.

(** ** Address exchange *)

Lemma armed_getaddr_fires e s :
  reachable e s ->
  is_Some (Timers.timeouts (_timers s) !! "getaddr") ->
  exec (step e (timeout "getaddr")) s =
  (with_timers (Timers.clearTimeout "getaddr" (_timers s)) s,
   [getaddr_timeout_warning e; fire_addresses []]).
Proof.
  intros Hwf%reachable_wf [fn Hfn].
  rewrite (step_timeout_armed _ _ fn) by done.
  by rewrite (wf_getaddr_fn _ Hwf fn Hfn).
Qed.

(** C6: an acceptable addr message makes the agent cancel the [getaddr]
    timer and hand the addresses to the pool under its channel; when the
    pool's promise resolves, the agent fires [addresses] with the list
    received.  If instead the timer is still armed when its time comes, the
    agent fires [addresses] with the empty list and hands nothing to the
    pool. *)
Theorem address_round_trip e s :
  (forall addresses,
     acceptable e (MAddr addresses) s = true ->
     run e [message (MAddr addresses); resolved (length (suspended s))] s =
     (with_timers (Timers.clearTimeout "getaddr" (_timers s)) s,
      [console_log ("[ADDR] " +:+ pretty (length addresses) +:+ " addresses ");
       addresses_push (channel e) addresses;
       fire_addresses addresses]))
  /\ (reachable e s ->
      is_Some (Timers.timeouts (_timers s) !! "getaddr") ->
      let '(s', out) := exec (step e (timeout "getaddr")) s in
      addresses_fired out = [[]]
      /\ (forall source addresses, addresses_push source addresses ∉ out)
      /\ s' = with_timers (Timers.clearTimeout "getaddr" (_timers s)) s).
Proof.
  split.
  - intros addresses Hc%acceptable_regular; [|done].
    cbn [run]. rewrite step_addr by done.
    rewrite (step_resolved_parked _ _ addresses); simpl.
    + rewrite delete_middle, app_nil_r. by destruct s; simplify_eq/=.
    + by rewrite list_lookup_middle.
  - intros Hreach Harmed. rewrite armed_getaddr_fires by done.
    split; [done|]. split; [|done].
    intros source addresses Hin.
    by repeat (apply elem_of_cons in Hin as [?|Hin]; [done|]);
      apply elem_of_nil in Hin.
Qed.

Lemma agent_connected_reachable : reachable env0 agent_connected.
Proof. by exists [message (MVersion version0); message MVerAck]. Defined.

Lemma address_round_trip_witness :
  acceptable env0 (MAddr ["ws://a"; "ws://b"]) agent_connected = true
  /\ is_Some (Timers.timeouts (_timers agent_connected) !! "getaddr")
  /\ run env0 [message (MAddr ["ws://a"; "ws://b"]); resolved 0] agent_connected =
     (with_timers (Timers.clearTimeout "getaddr" (_timers agent_connected))
        agent_connected,
      [console_log "[ADDR] 2 addresses ";
       addresses_push "peer-1" ["ws://a"; "ws://b"];
       fire_addresses ["ws://a"; "ws://b"]])
  /\ let '(s', out) := exec (step env0 (timeout "getaddr")) agent_connected in
     addresses_fired out = [[]]
     /\ (forall source addresses, addresses_push source addresses ∉ out)
     /\ s' = with_timers (Timers.clearTimeout "getaddr" (_timers agent_connected))
               agent_connected.
Proof.
  assert (is_Some (Timers.timeouts (_timers agent_connected) !! "getaddr"))
    as Harmed by (eexists; reflexivity).
  split; [reflexivity|]. split; [exact Harmed|].
  destruct (address_round_trip env0 agent_connected) as [Haddr Htimeout].
  split.
  - exact (Haddr ["ws://a"; "ws://b"] eq_refl).
  - exact (Htimeout agent_connected_reachable Harmed).
Defined.

(** C10: the close handler clears the [connectivity] interval and nothing
    else: the one-shot timers stay as they are.  So a [getaddr] timer armed
    before the close fires after it, and the [addresses] event is then fired
    with the empty list. *)
Theorem close_keeps_timeouts e s :
  let '(s', out) := exec (step e close) s in
  out = []
  /\ Timers.intervals (_timers s') = delete "connectivity" (Timers.intervals (_timers s))
  /\ Timers.timeouts (_timers s') = Timers.timeouts (_timers s)
  /\ _connected s' = _connected s /\ _version s' = _version s
  /\ suspended s' = suspended s
  /\ (reachable e s ->
      is_Some (Timers.timeouts (_timers s) !! "getaddr") ->
      (run e [close; timeout "getaddr"] s).2
      = [getaddr_timeout_warning e; fire_addresses []]).
Proof.
  rewrite step_close. repeat split.
  intros Hreach Harmed. cbn [run]. rewrite step_close.
  apply (reachable_step e close) in Hreach. rewrite step_close in Hreach.
  by rewrite armed_getaddr_fires.
Qed.

Lemma close_keeps_timeouts_witness :
  is_Some (Timers.timeouts (_timers agent_connected) !! "getaddr")
  /\ (run env0 [close; timeout "getaddr"] agent_connected).2
     = [getaddr_timeout_warning env0; fire_addresses []].
Proof.
  assert (is_Some (Timers.timeouts (_timers agent_connected) !! "getaddr"))
    as Harmed by (eexists; reflexivity).
  split; [exact Harmed|].
  pose proof (close_keeps_timeouts env0 agent_connected) as H.
  rewrite step_close in H.
  exact (proj2 (proj2 (proj2 (proj2 (proj2 (proj2 H)))))
           agent_connected_reachable Harmed).
Defined.

(** ** Liveness *)

(** C7: the connectivity interval is armed only on a connected agent; each
    of its ticks sends a ping with the nonce drawn and arms the one-shot
    timer [ping_<nonce>], whose firing closes the channel with reason
    "ping timeout".  A pong with that nonce cancels that timer and no other;
    a pong with another nonce leaves it armed, and when no timer bears the
    pong's nonce the agent's state does not change at all; neither pong
    closes the channel. *)
Theorem connectivity_check e nonce s :
  reachable e s ->
  is_Some (Timers.intervals (_timers s) !! "connectivity") ->
  _connected s = true
  /\ let '(s1, out1) := exec (step e (interval "connectivity" nonce)) s in
     out1 = [channel_ping nonce]
     /\ s1 = with_timers
               (Timers.setTimeout (ping_key nonce) (close_channel "ping timeout")
                  PING_TIMEOUT (_timers s)) s
     /\ exec (step e (timeout (ping_key nonce))) s1
        = (with_timers (Timers.clearTimeout (ping_key nonce) (_timers s1)) s1,
           [channel_close "ping timeout"])
     /\ (let '(s2, out2) := exec (step e (message (MPong nonce))) s1 in
         Timers.timeouts (_timers s2) !! ping_key nonce = None
         /\ (forall key, key <> ping_key nonce ->
               Timers.timeouts (_timers s2) !! key
               = Timers.timeouts (_timers s1) !! key)
         /\ Timers.intervals (_timers s2) = Timers.intervals (_timers s1)
         /\ closes out2 = [])
     /\ (forall other, other <> nonce ->
         let '(s2, out2) := exec (step e (message (MPong other))) s1 in
         Timers.timeouts (_timers s2) !! ping_key nonce
         = Some (close_channel "ping timeout")
         /\ closes out2 = []
         /\ (Timers.timeouts (_timers s1) !! ping_key other = None -> s2 = s1)).
Proof.
  intros Hwf%reachable_wf Hint. split.
  { destruct (_connected s) eqn:Hc; [done|].
    destruct (wf_idle _ Hwf Hc) as (_ & Hnone & _).
    rewrite Hnone in Hint. by destruct Hint. }
  rewrite step_interval_armed by done.
  split; [done|]. split; [done|]. split; [|split].
  - rewrite (step_timeout_armed _ _ (close_channel "ping timeout")); [done|].
    simpl. by rewrite lookup_insert_eq.
  - rewrite step_pong. simpl. split; [by rewrite lookup_delete_eq|].
    split; [|done]. intros key Hkey. by rewrite lookup_delete_ne.
  - intros other Hother. rewrite step_pong. simpl.
    assert (ping_key other <> ping_key nonce) as Hne
      by (by intros ?%ping_key_inj).
    split; [by rewrite lookup_delete_ne, lookup_insert_eq|].
    split; [done|].
    intros Hnone. unfold with_timers, Timers.clearTimeout; simpl.
    by rewrite (delete_id _ _ Hnone).
Qed.

Lemma connectivity_check_witness :
  is_Some (Timers.intervals (_timers agent_connected) !! "connectivity")
  /\ _connected agent_connected = true
  /\ (exec (step env0 (interval "connectivity" 77)) agent_connected).2
     = [channel_ping 77].
Proof.
  assert (is_Some (Timers.intervals (_timers agent_connected) !! "connectivity"))
    as Harmed by (eexists; reflexivity).
  split; [exact Harmed|].
  pose proof (connectivity_check env0 77 agent_connected
                agent_connected_reachable Harmed) as [Hc H].
  split; [exact Hc|].
  destruct (exec (step env0 (interval "connectivity" 77)) agent_connected)
    as [s1 out1].
  exact (proj1 H).
Defined.

(** ** The getaddr round *)


Lemma addresses_fired_app out1 out2 :
  addresses_fired (out1 ++ out2) = (addresses_fired out1 ++ addresses_fired out2)%list.
Proof. apply omap_app. Qed.

Lemma connected_fired_app out1 out2 :
  connected_fired (out1 ++ out2) = (connected_fired out1 ++ connected_fired out2)%list.
Proof. apply omap_app. Qed.

Lemma connected_stays e ev s :
  _connected s = true -> _connected (exec (step e ev) s).1 = true.
Proof.
  intros Hc. destruct (step_handshake_move e ev s); congruence.
Qed.

Lemma connected_stays_run e evs s :
  _connected s = true -> _connected (run e evs s).1 = true.
Proof.
  revert s. induction evs as [|ev evs IH]; intros s Hc; [done|].
  simpl. pose proof (connected_stays e ev s Hc) as Hc'.
  destruct (exec (step e ev) s) as [s1 out1].
  specialize (IH s1 Hc'). by destruct (run e evs s1).
Qed.

Lemma lifetime_wf e evs : wf (lifetime e evs).1.
Proof. apply (reachable_wf e). by exists evs. Qed.





(** ** The handshake over a whole life *)

Lemma handshake_log_snoc e evs ev s :
  handshake_log e (evs ++ [ev]) s =
  (handshake_log e evs s ++ accepted_handshake e ev (run e evs s).1)%list.
Proof.
  revert s. induction evs as [|ev' evs IH]; intros s; simpl.
  - by rewrite app_nil_r.
  - rewrite IH, (assoc_L (++)).
    destruct (exec (step e ev') s) as [s1 out1]; simpl.
    by destruct (run e evs s1).
Qed.

Lemma replicate_snoc {A} (x : A) n : (replicate n x ++ [x])%list = replicate (S n) x.
Proof. induction n as [|n IH]; simpl; [done|]. by rewrite IH. Qed.

Lemma lifetime_state e evs : (lifetime e evs).1 = (run e evs (constructor e).1).1.
Proof.
  unfold lifetime. destruct (constructor e) as [s0 out0]; simpl.
  by destruct (run e evs s0).
Qed.

Lemma handshake_state_holds e evs : handshake_state e evs.
Proof.
  induction evs as [|ev evs IH] using rev_ind.
  - by apply (awaiting_version _ _ 0).
  - pose proof (step_handshake_move e ev (lifetime e evs).1) as Hmove.
    assert (handshake_log e (evs ++ [ev]) (constructor e).1
            = (handshake_log e evs (constructor e).1
               ++ accepted_handshake e ev (lifetime e evs).1)%list) as Hlog
      by (by rewrite handshake_log_snoc, lifetime_state).
    assert (connected_fired (lifetime e (evs ++ [ev])).2
            = (connected_fired (lifetime e evs).2
               ++ connected_fired (exec (step e ev) (lifetime e evs).1).2)%list)
      as Hfired.
    { rewrite lifetime_snoc. destruct (lifetime e evs) as [s out]; simpl.
      destruct (exec (step e ev) s) as [s' out']; simpl.
      apply connected_fired_app. }
    assert ((lifetime e (evs ++ [ev])).1 = (exec (step e ev) (lifetime e evs).1).1)
      as Hstate.
    { rewrite lifetime_snoc. destruct (lifetime e evs) as [s out]; simpl.
      by destruct (exec (step e ev) s). }
    assert (forall msg, isHandshakeKind msg = true ->
              _connected (lifetime e evs).1 = false ->
              accepted_handshake e (message msg) (lifetime e evs).1 = [type msg])
      as Hgate.
    { intros msg Hk Hc. unfold accepted_handshake.
      by rewrite acceptable_spec, Hk, Hc. }
    destruct Hmove as [Hnone Hc' Hv' Hf|v Hev Hc Hv Hc' Hv' Hf
                      |v w Hev Hc Hv Hc' Hv' Hf|Hev Hc Hv Hc' Hv' Hf
                      |v Hev Hc Hv Hc' Hv' Hf]; try subst ev.
    + (* nothing moves *)
      rewrite Hnone, app_nil_r in Hlog. rewrite Hf, app_nil_r in Hfired.
      destruct IH as [k Hc Hv Hout Hl|v k j Hc Hv Hout Hl|v k j Hc Hv Hout Hl].
      * apply (awaiting_version _ _ k); congruence.
      * apply (awaiting_verack _ _ v k j); congruence.
      * apply (handshake_done _ _ v k j); congruence.
    + (* the first version *)
      rewrite Hgate in Hlog by done. rewrite Hf, app_nil_r in Hfired.
      destruct IH as [k _ _ Hout Hl|w k j _ Hw _ _|w k j Hcw _ _ _];
        [|congruence|congruence].
      apply (awaiting_verack _ _ v k 0); try congruence.
      by rewrite Hlog, Hl.
    + (* a further version *)
      rewrite Hgate in Hlog by done. rewrite Hf, app_nil_r in Hfired.
      destruct IH as [k _ Hw _ _|u k j _ Hu Hout Hl|u k j Hcu _ _ _];
        [congruence| |congruence].
      apply (awaiting_verack _ _ w k (S j)); try congruence.
      rewrite Hlog, Hl, <-(assoc_L (++)). simpl. f_equal. f_equal.
      apply replicate_snoc.
    + (* a verack before any version *)
      rewrite Hgate in Hlog by done. rewrite Hf, app_nil_r in Hfired.
      destruct IH as [k _ _ Hout Hl|w k j _ Hw _ _|w k j Hcw _ _ _];
        [|congruence|congruence].
      apply (awaiting_version _ _ (S k)); try congruence.
      rewrite Hlog, Hl. apply replicate_snoc.
    + (* the verack that connects *)
      rewrite Hgate in Hlog by done.
      destruct IH as [k _ Hw _ _|u k j _ Hu Hout Hl|u k j Hcu _ _ _];
        [congruence| |congruence].
      apply (handshake_done _ _ v k j); try congruence.
      * by rewrite Hfired, Hout, Hf.
      * rewrite Hlog, Hl. unfold handshake_shape.
        by rewrite <-(assoc_L (++)).
Qed.

(** ** The gate and the handlers

    [handshake_move] and the equations above already show the gate at work
    in five handlers; here is what it decides, and the handler that does
    without it. *)

(** For the five kinds whose handler starts with the gate, the gate decides:
    a message it turns down changes nothing and triggers nothing but the
    warning; a message it lets through is logged by its handler. *)
Lemma gate_decides_guarded_kinds e msg s :
  type msg <> Message.PONG ->
  (acceptable e msg s = false <->
   exec (step e (message msg)) s = (s, [discarding e msg s])).
Proof.
  intros Hkind. split; [by apply step_discarded|].
  intros Hstep. destruct (acceptable e msg s) eqn:Hacc; [exfalso|done].
  rewrite acceptable_spec in Hacc.
  destruct msg as [v| |addresses|mask|nonce|nonce]; simpl in Hacc.
  - apply negb_true_iff in Hacc. destruct (_version s) eqn:Hv.
    + rewrite step_version_duplicate in Hstep by eauto. by simplify_eq.
    + rewrite step_version_first in Hstep by done. by simplify_eq.
  - apply negb_true_iff in Hacc. destruct (_version s) as [v|] eqn:Hv.
    + rewrite (step_verack_connects _ v) in Hstep by done. by simplify_eq.
    + rewrite step_verack_early in Hstep by done. by simplify_eq.
  - rewrite step_addr in Hstep by done. by simplify_eq.
  - rewrite step_getaddr in Hstep by done. by simplify_eq.
  - rewrite step_ping in Hstep by done. by simplify_eq.
  - done.
Qed.

(** A pong that reaches a newly constructed agent: the gate's answer for it
    is no, and [_onPong], which does not ask, logs the pong and clears the
    timer of its nonce, of which there is none; a gated handler, as
    [_onPing] here, prints the discard warning. *)
Example pong_is_not_gated :
  acceptable env0 (MPong 7) agent_new = false
  /\ exec (step env0 (message (MPong 7))) agent_new
     = (with_timers (Timers.clearTimeout "ping_7" (_timers agent_new)) agent_new,
        [console_log "[PONG] nonce=7"])
  /\ exec (step env0 (message (MPing 7))) agent_new
     = (agent_new, [discarding env0 (MPing 7) agent_new]).
Proof. split; [reflexivity|]. split; reflexivity. Qed.

(** ** Scenarios *)

(** The end-to-end scenario of the specification. *)
Example handshake_then_addresses :
  (lifetime env0
     [message (MVersion version0); message MVerAck;
      message (MAddr ["ws://a"; "ws://b"]); resolved 0]).2
  = [channel_version 100;
     console_log "[VERSION] startHeight=250"; channel_verack;
     console_log "[VERACK]"; fire_connected (peer_of env0 version0);
     channel_getaddr 1;
     console_log "[ADDR] 2 addresses ";
     addresses_push "peer-1" ["ws://a"; "ws://b"];
     fire_addresses ["ws://a"; "ws://b"]].
Proof. reflexivity. Qed.

(** After the round: an addr message that arrives once the getaddr timer
    has fired is handled like any other, so the listeners get the empty
    list and then the late one. *)
Example late_addr_fires_again :
  addresses_fired
    (lifetime env0
       [message (MVersion version0); message MVerAck; timeout "getaddr";
        message (MAddr ["ws://a"]); resolved 0]).2
  = [[]; ["ws://a"]].
Proof. reflexivity. Qed.

(** A timer that was cancelled does not fire. *)
Example cancelled_getaddr_is_silent :
  addresses_fired
    (lifetime env0
       [message (MVersion version0); message MVerAck;
        message (MAddr ["ws://a"]); timeout "getaddr"; resolved 0]).2
  = [["ws://a"]].
Proof. reflexivity. Qed.

(** * Further properties *)

(** ** Case analysis of a turn

    Splits a goal about [exec (step e ev) s] into the cases of the handler
    equations, and rewrites the turn to its result in each. *)
Ltac turn_cases e ev s :=
  let Hc := fresh "Hc" in
  let Hv := fresh "Hv" in
  let Hk := fresh "Hk" in
  destruct ev as [[?v| |?addresses|?mask|?nonce|?nonce]| |?key|?key ?nonce|?k];
  [ destruct (_connected s) eqn:Hc;
    [ rewrite (step_discarded e (MVersion _) s) in *;
      [|done|by rewrite acceptable_spec, Hc]
    | destruct (_version s) eqn:Hv;
      [ rewrite (step_version_duplicate e _ s) in * by eauto
      | rewrite (step_version_first e _ s) in * by done ] ]
  | destruct (_connected s) eqn:Hc;
    [ rewrite (step_discarded e MVerAck s) in *;
      [|done|by rewrite acceptable_spec, Hc]
    | destruct (_version s) eqn:Hv;
      [ rewrite (step_verack_connects e _ s Hc Hv) in *
      | rewrite (step_verack_early e s) in * by done ] ]
  | destruct (_connected s) eqn:Hc;
    [ rewrite (step_addr e _ s) in * by done
    | rewrite (step_discarded e (MAddr _) s) in *;
      [|done|by rewrite acceptable_spec, Hc] ]
  | destruct (_connected s) eqn:Hc;
    [ rewrite (step_getaddr e _ s) in * by done
    | rewrite (step_discarded e (MGetAddr _) s) in *;
      [|done|by rewrite acceptable_spec, Hc] ]
  | destruct (_connected s) eqn:Hc;
    [ rewrite (step_ping e _ s) in * by done
    | rewrite (step_discarded e (MPing _) s) in *;
      [|done|by rewrite acceptable_spec, Hc] ]
  | rewrite (step_pong e _ s) in *
  | rewrite (step_close e s) in *
  | destruct (Timers.timeouts (_timers s) !! key) as [[?reason|]|] eqn:Hk;
    [ rewrite (step_timeout_armed e _ _ s Hk) in *
    | rewrite (step_timeout_armed e _ _ s Hk) in *
    | rewrite (step_timeout_unarmed e _ s Hk) in * ]
  | destruct (Timers.intervals (_timers s) !! key) as [[]|] eqn:Hk;
    [ rewrite (step_interval_armed e _ _ s) in * by eauto
    | rewrite (step_interval_unarmed e _ _ s Hk) in * ]
  | destruct (suspended s !! k) as [?l|] eqn:Hk;
    [ rewrite (step_resolved_parked e _ _ s Hk) in *
    | rewrite (step_resolved_none e _ s Hk) in * ] ].

(** Induction on a life, for a property of the agent's state and of what it
    has done so far. *)
Lemma lifetime_ind e (P : NetworkAgent -> list Effect -> Prop) :
  P (constructor e).1 (constructor e).2 ->
  (forall ev s out,
     P s out -> P (exec (step e ev) s).1 (out ++ (exec (step e ev) s).2)%list) ->
  forall evs, P (lifetime e evs).1 (lifetime e evs).2.
Proof.
  intros Hinit Hstep evs. induction evs as [|ev evs IH] using rev_ind.
  - unfold lifetime. destruct (constructor e) as [s0 out0]; simpl in *.
    by rewrite app_nil_r.
  - rewrite lifetime_snoc. specialize (Hstep ev _ _ IH).
    destruct (lifetime e evs) as [s out]; simpl in *.
    by destruct (exec (step e ev) s).
Qed.

(** Settles the gate's answer from what is known of the connected flag. *)
Ltac gate_answer :=
  unfold accepted_now; rewrite ?acceptable_spec;
  repeat match goal with
         | H : _connected ?s = _ |- context [_connected ?s] => rewrite H
         end;
  simpl;
  repeat match goal with
         | |- context [if _connected ?s then _ else _] =>
           destruct (_connected s)
         end.

Lemma lifetime_snoc_state e evs ev :
  (lifetime e (evs ++ [ev])).1 = (exec (step e ev) (lifetime e evs).1).1.
Proof.
  rewrite lifetime_snoc. destruct (lifetime e evs) as [s out]; simpl.
  by destruct (exec (step e ev) s).
Qed.

Lemma lifetime_snoc_out e evs ev :
  (lifetime e (evs ++ [ev])).2
  = ((lifetime e evs).2 ++ (exec (step e ev) (lifetime e evs).1).2)%list.
Proof.
  rewrite lifetime_snoc. destruct (lifetime e evs) as [s out]; simpl.
  by destruct (exec (step e ev) s).
Qed.

Lemma accepted_log_snoc e evs ev s :
  accepted_log e (evs ++ [ev]) s
  = (accepted_log e evs s ++ accepted_now e ev (run e evs s).1)%list.
Proof.
  revert s. induction evs as [|ev' evs IH]; intros s; simpl.
  - by rewrite app_nil_r.
  - rewrite IH, (assoc_L (++)).
    destruct (exec (step e ev') s) as [s1 out1]; simpl.
    by destruct (run e evs s1).
Qed.

(** ** Replies *)

(** When each turn sends, of some kind of call, what the message it accepts
    asks for, a life sends what its accepted messages ask for, in order. *)
Lemma replies_follow_log {A} e (sent : Effect -> option A)
    (answer : Msg -> option A) :
  omap sent (constructor e).2 = [] ->
  (forall ev s,
     omap sent (exec (step e ev) s).2 = omap answer (accepted_now e ev s)) ->
  forall evs,
    omap sent (lifetime e evs).2
    = omap answer (accepted_log e evs (constructor e).1).
Proof.
  intros Hinit Hstep evs. induction evs as [|ev evs IH] using rev_ind.
  - unfold lifetime. destruct (constructor e) as [s0 out0]; simpl in *.
    by rewrite app_nil_r.
  - rewrite lifetime_snoc_out, accepted_log_snoc, !omap_app, IH, Hstep.
    by rewrite lifetime_state.
Qed.

(** X2: the pongs an agent sends in its life are the nonces of the pings the
    gate let through, one each and in the order of their arrival. *)
Theorem pongs_answer_pings e evs :
  pongs_sent (lifetime e evs).2
  = omap ping_nonce (accepted_log e evs (constructor e).1).
Proof.
  apply replies_follow_log; [done|].
  intros ev s. turn_cases e ev s; gate_answer; done.
Qed.

(** X3: the addr messages an agent sends in its life are the pool's answers
    to the getaddr requests the gate let through, one each and in order; and
    handling a getaddr request leaves the agent as it was. *)
Theorem addrs_answer_getaddrs e evs :
  addrs_sent (lifetime e evs).2
  = omap (getaddr_answer e) (accepted_log e evs (constructor e).1)
  /\ forall mask s, (exec (step e (message (MGetAddr mask))) s).1 = s.
Proof.
  split.
  - apply replies_follow_log; [done|].
    intros ev s. turn_cases e ev s; gate_answer; done.
  - intros mask s. destruct (_connected s) eqn:Hc.
    + by rewrite step_getaddr.
    + by rewrite step_discarded; [|done|rewrite acceptable_spec, Hc].
Qed.

(** X13: the lists handed to the address pool in a life are those of the
    addr messages the gate let through, each once, in order and under the
    agent's own channel. *)
Theorem pool_gets_accepted_addrs e evs :
  pushed (lifetime e evs).2
  = omap (addr_push e) (accepted_log e evs (constructor e).1).
Proof.
  apply replies_follow_log; [done|].
  intros ev s. turn_cases e ev s; gate_answer; done.
Qed.

(** ** The timers of an agent *)

Lemma expected_verack : expected_timeout "verack" (close_channel "verack timeout").
Proof. by left. Qed.

Lemma expected_version : expected_timeout "version" (close_channel "version timeout").
Proof. by right; left. Qed.

Lemma expected_getaddr : expected_timeout "getaddr" no_addresses.
Proof. by right; right; left. Qed.

Lemma expected_ping nonce :
  expected_timeout (ping_key nonce) (close_channel "ping timeout").
Proof. right; right; right. by exists nonce. Qed.

Lemma timers_wf_constructor e : timers_wf (constructor e).1.
Proof.
  split; simpl; intros; lookups; repeat case_decide; simplify_eq;
    auto using expected_verack, expected_version.
  by destruct H.
Qed.

Lemma timers_wf_step e ev s : timers_wf s -> timers_wf (exec (step e ev) s).1.
Proof.
  intros Htwf. pose proof Htwf as [Hto Hint Hver Hack].
  turn_cases e ev s; try done;
    (split; simpl; intros; lookups; repeat case_decide; simplify_eq;
     eauto using expected_getaddr, expected_ping, ping_key_not_version,
       ping_key_not_verack;
     try congruence;
     try match goal with
         | H : is_Some None |- _ => by destruct H
         | H : is_Some (_version ?s), Hv : _version ?s = None |- _ =>
           rewrite Hv in H; by destruct H
         end).
Qed.

Lemma lifetime_timers_wf e evs : timers_wf (lifetime e evs).1.
Proof.
  induction evs as [|ev evs IH] using rev_ind.
  - apply timers_wf_constructor.
  - rewrite lifetime_snoc_state. by apply timers_wf_step.
Qed.

(** Induction on a life, with what holds of every agent at hand. *)
Lemma lifetime_ind_wf e (P : NetworkAgent -> list Effect -> Prop) :
  P (constructor e).1 (constructor e).2 ->
  (forall ev s out,
     wf s -> timers_wf s -> P s out ->
     P (exec (step e ev) s).1 (out ++ (exec (step e ev) s).2)%list) ->
  forall evs, P (lifetime e evs).1 (lifetime e evs).2.
Proof.
  intros Hinit Hstep evs. induction evs as [|ev evs IH] using rev_ind.
  - unfold lifetime. destruct (constructor e) as [s0 out0]; simpl in *.
    by rewrite app_nil_r.
  - rewrite lifetime_snoc_state, lifetime_snoc_out.
    apply Hstep; [apply lifetime_wf|apply lifetime_timers_wf|done].
Qed.

(** X6: whenever an agent closes its channel, the reason it gives is one of
    "verack timeout", "version timeout", "ping timeout" and "verack before
    version". *)
Theorem close_reasons_are_known e evs :
  Forall (fun reason => reason ∈ close_reasons) (closes (lifetime e evs).2).
Proof.
  apply (lifetime_ind_wf e (fun _ out =>
           Forall (fun reason => reason ∈ close_reasons) (closes out))).
  - by apply Forall_nil.
  - intros ev s out _ [Hto _ _ _] IH. unfold closes. rewrite omap_app.
    apply Forall_app. split; [done|].
    turn_cases e ev s; simpl; try by apply Forall_nil.
    + apply Forall_singleton. unfold close_reasons. set_solver.
    + apply Forall_singleton.
      destruct (Hto _ _ Hk) as [[_ ?]|[[_ ?]|[[_ ?]|(? & _ & ?)]]];
        simplify_eq; unfold close_reasons; set_solver.
Qed.

(** ** What is sent, and when *)

(** X1: in every life the agent announces its version once, with the
    blockchain's height, and never again: no message, timer or close event
    makes it send another version message. *)
Theorem version_announced_once e evs :
  versions_sent (lifetime e evs).2 = [blockchain_height e].
Proof.
  apply (lifetime_ind e (fun _ out =>
           versions_sent out = [blockchain_height e])).
  - done.
  - intros ev s out Hsent.
    unfold versions_sent in *. rewrite omap_app, Hsent.
    turn_cases e ev s; done.
Qed.

Lemma ToInt32_low_bits z i :
  (0 <= i < 32)%Z -> Z.testbit (ToInt32 z) i = Z.testbit z i.
Proof.
  intros Hi. unfold ToInt32.
  rewrite <-(Z.mod_pow2_bits_low (_ - _) 32 i), <-(Z.mod_pow2_bits_low z 32 i)
    by lia.
  f_equal. rewrite Zminus_mod, Zmod_mod, <-Zminus_mod. f_equal. lia.
Qed.

Lemma ToInt32_small z : (0 <= z < 2 ^ 31)%Z -> ToInt32 z = z.
Proof.
  intros Hz. unfold ToInt32. rewrite Z.mod_small; lia.
Qed.

(** X4: an agent sends its getaddr request when it completes the handshake
    and at no other time, so once in a life at most.  Outside a browser the
    mask is WEBSOCKET as it stands.  In a browser it is [WEBSOCKET | WEBRTC]:
    each of its 32 low bits is set when it is in one of the two constants,
    and for constants below 2^31 the mask is their bitwise or. *)
Theorem getaddr_sent_on_connect e evs :
  getaddrs_sent (lifetime e evs).2
  = (if _connected (lifetime e evs).1 then [requested_services e] else [])
  /\ (isBrowser e = false -> requested_services e = Z.of_N (WEBSOCKET e))
  /\ (isBrowser e = true ->
      forall i, (0 <= i < 32)%Z ->
        Z.testbit (requested_services e) i
        = N.testbit (WEBSOCKET e) (Z.to_N i) || N.testbit (WEBRTC e) (Z.to_N i))
  /\ (isBrowser e = true ->
      (WEBSOCKET e < 2 ^ 31)%N -> (WEBRTC e < 2 ^ 31)%N ->
      requested_services e = Z.of_N (N.lor (WEBSOCKET e) (WEBRTC e))).
Proof.
  split; [|split; [|split]].
  - apply (lifetime_ind e (fun s out =>
             getaddrs_sent out
             = if _connected s then [requested_services e] else [])).
    + done.
    + intros ev s out IH. unfold getaddrs_sent in *. rewrite omap_app, IH.
      turn_cases e ev s; simpl; rewrite ?Hc, ?app_nil_r; done.
  - unfold requested_services. by intros ->.
  - unfold requested_services, bitor. intros -> i Hi.
    rewrite Z.lor_spec, !ToInt32_low_bits, !Z.testbit_of_N' by lia. done.
  - unfold requested_services, bitor. intros -> Hws Hrtc.
    rewrite !ToInt32_small, N2Z.inj_lor; [done|lia|lia].
Qed.

Lemma getaddr_sent_on_connect_witness :
  isBrowser env_browser = true
  /\ (WEBSOCKET env_browser < 2 ^ 31)%N /\ (WEBRTC env_browser < 2 ^ 31)%N
  /\ getaddrs_sent
       (lifetime env_browser [message (MVersion version0); message MVerAck]).2
     = [3%Z]
  /\ requested_services env_browser
     = Z.of_N (N.lor (WEBSOCKET env_browser) (WEBRTC env_browser)).
Proof.
  split; [reflexivity|]. split; [reflexivity|]. split; [reflexivity|].
  destruct (getaddr_sent_on_connect env_browser
              [message (MVersion version0); message MVerAck])
    as (Hsent & _ & _ & Hor).
  split; [exact Hsent|exact (Hor eq_refl eq_refl eq_refl)].
Defined.

(** X5: as long as the handshake is not complete the agent sends no ping, no
    pong, no getaddr request and no addr reply, hands nothing to the address
    pool and fires no event. *)
Theorem quiet_before_connected e evs :
  _connected (lifetime e evs).1 = false ->
  filter after_handshake (lifetime e evs).2 = [].
Proof.
  apply (lifetime_ind_wf e (fun s out =>
           _connected s = false -> filter after_handshake out = [])).
  - done.
  - intros ev s out Hwf [_ Hint _ _] IH.
    assert (_connected s = false -> filter after_handshake out = []
            /\ Timers.timeouts (_timers s) !! "getaddr" = None
            /\ Timers.intervals (_timers s) !! "connectivity" = None
            /\ suspended s = []) as Hidle.
    { intros Hc. split; [by apply IH|]. by apply wf_idle. }
    pose proof (wf_getaddr_key _ Hwf) as Hkey.
    rewrite filter_app.
    turn_cases e ev s; simpl; intros Hc'; try congruence;
      destruct (Hidle ltac:(done)) as (-> & Hget & Hnone & Hsusp); try done.
    + apply Hkey in Hk as Heq. congruence.
    + apply Hint in Hk as Heq. congruence.
    + by rewrite Hsusp in Hk.
Qed.

Lemma quiet_before_connected_witness :
  _connected (lifetime env0 [message MVerAck; message (MPing 3);
                             message (MVersion version0)]).1 = false
  /\ filter after_handshake
       (lifetime env0 [message MVerAck; message (MPing 3);
                       message (MVersion version0)]).2 = [].
Proof.
  split; [reflexivity|].
  apply (quiet_before_connected env0
           [message MVerAck; message (MPing 3); message (MVersion version0)]).
  reflexivity.
Defined.

(** ** The handshake timers *)

(** X7: the handshake timers cannot end an established connection.  Once a
    version is stored the [version] timer is gone, and once the agent is
    connected so is the [verack] timer: their time coming does nothing. *)
Theorem handshake_timers_expire e evs :
  let s := (lifetime e evs).1 in
  (is_Some (_version s) -> exec (step e (timeout "version")) s = (s, []))
  /\ (_connected s = true -> exec (step e (timeout "verack")) s = (s, [])).
Proof.
  intros s. pose proof (lifetime_timers_wf e evs) as [_ _ Hver Hack].
  split; intros H; apply step_timeout_unarmed; auto.
Qed.

Lemma handshake_timers_expire_witness :
  is_Some (_version agent_connected)
  /\ _connected agent_connected = true
  /\ exec (step env0 (timeout "version")) agent_connected = (agent_connected, [])
  /\ exec (step env0 (timeout "verack")) agent_connected = (agent_connected, []).
Proof.
  assert (is_Some (_version agent_connected)) as Hv by (eexists; reflexivity).
  assert (_connected agent_connected = true) as Hc by reflexivity.
  split; [exact Hv|]. split; [exact Hc|].
  destruct (handshake_timers_expire env0
              [message (MVersion version0); message MVerAck]) as [H1 H2].
  split; [exact (H1 Hv)|exact (H2 Hc)].
Defined.

Lemma version_timer_waits e ev s :
  version_pending ev = true ->
  Timers.timeouts (_timers (exec (step e ev) s).1) !! "version"
  = Timers.timeouts (_timers s) !! "version".
Proof.
  intros Hpending.
  turn_cases e ev s; simpl in *; try done; lookups; repeat case_decide;
    simplify_eq; done.
Qed.

Lemma verack_timer_waits e ev s :
  verack_pending ev = true ->
  Timers.timeouts (_timers (exec (step e ev) s).1) !! "verack"
  = Timers.timeouts (_timers s) !! "verack".
Proof.
  intros Hpending.
  turn_cases e ev s; simpl in *; try done; lookups; repeat case_decide;
    simplify_eq; done.
Qed.

(** X8: a peer that stays silent is dropped.  If the events of a life
    include no version message (and the [version] timer has not fired yet),
    the timer is still armed and its firing closes the channel with reason
    "version timeout"; likewise for verack messages, the [verack] timer and
    "verack timeout". *)
Theorem silent_peer_is_dropped e evs :
  (forallb version_pending evs = true ->
   (exec (step e (timeout "version")) (lifetime e evs).1).2
   = [channel_close "version timeout"])
  /\ (forallb verack_pending evs = true ->
      (exec (step e (timeout "verack")) (lifetime e evs).1).2
      = [channel_close "verack timeout"]).
Proof.
  split; intros Hpending.
  - assert (Timers.timeouts (_timers (lifetime e evs).1) !! "version"
            = Some (close_channel "version timeout")) as Harmed.
    { induction evs as [|ev evs IH] using rev_ind; [done|].
      rewrite forallb_app in Hpending.
      apply andb_true_iff in Hpending as [Hevs Hev]. simpl in Hev.
      rewrite andb_true_r in Hev.
      rewrite lifetime_snoc_state, version_timer_waits by done. auto. }
    by rewrite (step_timeout_armed _ _ _ _ Harmed).
  - assert (Timers.timeouts (_timers (lifetime e evs).1) !! "verack"
            = Some (close_channel "verack timeout")) as Harmed.
    { induction evs as [|ev evs IH] using rev_ind; [done|].
      rewrite forallb_app in Hpending.
      apply andb_true_iff in Hpending as [Hevs Hev]. simpl in Hev.
      rewrite andb_true_r in Hev.
      rewrite lifetime_snoc_state, verack_timer_waits by done. auto. }
    by rewrite (step_timeout_armed _ _ _ _ Harmed).
Qed.

Lemma silent_peer_is_dropped_witness :
  forallb version_pending [message MVerAck; close; timeout "verack"] = true
  /\ (exec (step env0 (timeout "version"))
        (lifetime env0 [message MVerAck; close; timeout "verack"]).1).2
     = [channel_close "version timeout"].
Proof.
  split; [reflexivity|].
  exact (proj1 (silent_peer_is_dropped env0
                  [message MVerAck; close; timeout "verack"]) eq_refl).
Defined.

(** ** Liveness over many turns *)

Lemma ping_timer_waits e nonce ev s :
  ping_pending nonce ev = true ->
  Timers.timeouts (_timers s) !! ping_key nonce
  = Some (close_channel "ping timeout") ->
  Timers.timeouts (_timers (exec (step e ev) s).1) !! ping_key nonce
  = Some (close_channel "ping timeout").
Proof.
  intros Hpending Harmed.
  turn_cases e ev s; simpl in *; try done; lookups; repeat case_decide;
    simplify_eq; try done.
  - by rewrite N.eqb_refl in Hpending.
  - by rewrite String.eqb_refl in Hpending.
Qed.

(** X9: a ping that is not answered closes the channel, whatever else
    happens in between.  From a state where the timer of [nonce] is armed,
    after any events among which there is neither a pong with this nonce nor
    the firing of this timer, the timer is still armed and its firing closes
    the channel with reason "ping timeout". *)
Theorem unanswered_ping_closes e nonce evs s :
  Timers.timeouts (_timers s) !! ping_key nonce
  = Some (close_channel "ping timeout") ->
  forallb (ping_pending nonce) evs = true ->
  (exec (step e (timeout (ping_key nonce))) (run e evs s).1).2
  = [channel_close "ping timeout"].
Proof.
  revert s. induction evs as [|ev evs IH]; intros s Harmed Hpending.
  - change (run e [] s).1 with s.
    by rewrite (step_timeout_armed _ _ _ _ Harmed).
  - simpl in Hpending. apply andb_true_iff in Hpending as [Hev Hevs].
    pose proof (ping_timer_waits e nonce ev s Hev Harmed) as Harmed'.
    cbn [run]. destruct (exec (step e ev) s) as [s1 out1]; cbn [fst] in *.
    specialize (IH s1 Harmed' Hevs). by destruct (run e evs s1).
Qed.

Lemma unanswered_ping_closes_witness :
  Timers.timeouts
    (_timers (exec (step env0 (interval "connectivity" 77)) agent_connected).1)
    !! ping_key 77 = Some (close_channel "ping timeout")
  /\ forallb (ping_pending 77)
       [message (MPong 78); close; message (MPing 5); timeout "getaddr"] = true
  /\ (exec (step env0 (timeout (ping_key 77)))
        (run env0
           [message (MPong 78); close; message (MPing 5); timeout "getaddr"]
           (exec (step env0 (interval "connectivity" 77)) agent_connected).1).1).2
     = [channel_close "ping timeout"].
Proof.
  split; [reflexivity|]. split; [reflexivity|].
  apply (unanswered_ping_closes env0 77); reflexivity.
Defined.

(** ** After the handshake, after the close *)

Lemma established_step e ev s :
  _connected s = true ->
  _connected (exec (step e ev) s).1 = true
  /\ _version (exec (step e ev) s).1 = _version s.
Proof.
  intros Hc. destruct (step_handshake_move e ev s); split; congruence.
Qed.

(** X11: nothing lowers the connected flag or touches the stored version of
    a connected agent: not the channel's close event, not a timer, not a
    message. *)
Theorem established_stays e evs s :
  _connected s = true ->
  _connected (run e evs s).1 = true
  /\ _version (run e evs s).1 = _version s.
Proof.
  revert s. induction evs as [|ev evs IH]; intros s Hc; [done|].
  destruct (established_step e ev s Hc) as [Hc' Hv'].
  cbn [run]. destruct (exec (step e ev) s) as [s1 out1]; cbn [fst] in *.
  destruct (IH s1 Hc') as [Hc'' Hv'']. destruct (run e evs s1); simpl in *.
  split; congruence.
Qed.

Lemma established_stays_witness :
  _connected agent_connected = true
  /\ _connected (run env0 [close; timeout "getaddr"; message MVerAck]
                   agent_connected).1 = true
  /\ _version (run env0 [close; timeout "getaddr"; message MVerAck]
                 agent_connected).1 = _version agent_connected.
Proof.
  split; [reflexivity|].
  apply (established_stays env0 [close; timeout "getaddr"; message MVerAck]
           agent_connected).
  reflexivity.
Defined.

(** An agent that is connected and has no interval armed. *)
Lemma ticks_stopped_step e ev s :
  _connected s = true ->
  (forall key, Timers.intervals (_timers s) !! key = None) ->
  (forall key, Timers.intervals (_timers (exec (step e ev) s).1) !! key = None)
  /\ pings_sent (exec (step e ev) s).2 = [].
Proof.
  intros Hc Hnone.
  turn_cases e ev s; simpl; try done; try congruence.
  split; [|done]. intros key'. by rewrite lookup_delete_None; right.
Qed.

(** X10: once the channel of a connected agent has raised its close event,
    the agent sends no ping any more. *)
Theorem no_ping_after_close e evs s :
  reachable e s ->
  _connected s = true ->
  pings_sent (run e (close :: evs) s).2 = [].
Proof.
  intros [evs0 <-] Hc.
  pose proof (lifetime_timers_wf e evs0) as [_ Hint _ _].
  cbn [run]. rewrite step_close.
  set (s1 := with_timers _ _).
  assert (_connected s1 = true) as Hc1 by done.
  assert (forall key, Timers.intervals (_timers s1) !! key = None) as Hnone.
  { intros key. subst s1. simpl. apply lookup_delete_None.
    destruct (Timers.intervals (_timers (lifetime e evs0).1) !! key) eqn:Hk;
      [left|by right].
    by apply Hint in Hk. }
  clearbody s1. clear Hc Hint evs0.
  assert (pings_sent (run e evs s1).2 = []) as Hrun.
  { revert s1 Hc1 Hnone. induction evs as [|ev evs IH]; intros s1 Hc1 Hnone.
    - done.
    - destruct (ticks_stopped_step e ev s1 Hc1 Hnone) as [Hnone' Hsent].
      pose proof (connected_stays e ev s1 Hc1) as Hc1'.
      cbn [run]. destruct (exec (step e ev) s1) as [s2 out2]; cbn [fst snd] in *.
      specialize (IH s2 Hc1' Hnone'). destruct (run e evs s2); simpl in *.
      unfold pings_sent in *. by rewrite omap_app, Hsent, IH. }
  by destruct (run e evs s1).
Qed.

Lemma no_ping_after_close_witness :
  _connected agent_connected = true
  /\ pings_sent (run env0 [close; interval "connectivity" 9; message (MPing 4)]
                   agent_connected).2 = [].
Proof.
  split; [reflexivity|].
  apply (no_ping_after_close env0
           [interval "connectivity" 9; message (MPing 4)] agent_connected
           agent_connected_reachable).
  reflexivity.
Defined.

(** X15: the agent waits for a pong only to a ping it has sent: in every
    life, each armed ping timer bears the nonce of a ping that went out. *)
Theorem ping_timers_are_for_sent_pings e evs nonce :
  is_Some (Timers.timeouts (_timers (lifetime e evs).1) !! ping_key nonce) ->
  nonce ∈ pings_sent (lifetime e evs).2.
Proof.
  revert nonce.
  apply (lifetime_ind e (fun s out => forall nonce,
           is_Some (Timers.timeouts (_timers s) !! ping_key nonce) ->
           nonce ∈ pings_sent out)).
  - intros nonce [fn H]. simpl in H. lookups. by repeat case_decide.
  - intros ev s out IH n. unfold pings_sent in *. rewrite omap_app.
    rewrite elem_of_app.
    turn_cases e ev s; simpl; intros [fn H]; lookups; repeat case_decide;
      simplify_eq; try (left; apply IH; by eauto).
    right. apply list_elem_of_singleton. done.
Qed.

Lemma ping_timers_are_for_sent_pings_witness :
  is_Some (Timers.timeouts
             (_timers (lifetime env0 [message (MVersion version0);
                                      message MVerAck;
                                      interval "connectivity" 77]).1)
             !! ping_key 77)
  /\ 77%N ∈ pings_sent (lifetime env0 [message (MVersion version0);
                                       message MVerAck;
                                       interval "connectivity" 77]).2.
Proof.
  assert (is_Some (Timers.timeouts
             (_timers (lifetime env0 [message (MVersion version0);
                                      message MVerAck;
                                      interval "connectivity" 77]).1)
             !! ping_key 77)) as Harmed by (eexists; reflexivity).
  split; [exact Harmed|].
  exact (ping_timers_are_for_sent_pings env0 _ 77%N Harmed).
Defined.

(** ** Answers to version messages *)

(** What one turn adds to the answers to version messages. *)
Lemma version_turn e ev s :
  let s' := (exec (step e ev) s).1 in
  let out := (exec (step e ev) s).2 in
  match version_messages (accepted_now e ev s), _version s with
  | [], _ =>
    _version s' = _version s /\ veracks_sent out = [] /\ rejects_sent out = []
  | [v], None =>
    _version s' = Some v /\ veracks_sent out = [tt] /\ rejects_sent out = []
  | [v], Some stored =>
    _version s' = Some stored /\ veracks_sent out = []
    /\ rejects_sent out = [("version", RejectMessage.DUPLICATE)]
  | _, _ => False
  end.
Proof.
  turn_cases e ev s; gate_answer; done.
Qed.

Lemma veracks_sent_app out1 out2 :
  veracks_sent (out1 ++ out2) = (veracks_sent out1 ++ veracks_sent out2)%list.
Proof. apply omap_app. Qed.

Lemma rejects_sent_app out1 out2 :
  rejects_sent (out1 ++ out2) = (rejects_sent out1 ++ rejects_sent out2)%list.
Proof. apply omap_app. Qed.

Lemma version_messages_app msgs1 msgs2 :
  version_messages (msgs1 ++ msgs2)
  = (version_messages msgs1 ++ version_messages msgs2)%list.
Proof. apply omap_app. Qed.

(** X12: the version the agent stores is the first version message the gate
    let through.  The agent acknowledges that one with a verack, the only
    verack it ever sends, and answers each further one with a reject of
    "version" with code DUPLICATE. *)
Theorem versions_are_answered e evs :
  let s := (lifetime e evs).1 in
  let out := (lifetime e evs).2 in
  let versions := version_messages (accepted_log e evs (constructor e).1) in
  _version s = head versions
  /\ veracks_sent out = replicate (length versions `min` 1) tt
  /\ rejects_sent out
     = replicate (length versions - 1) ("version", RejectMessage.DUPLICATE).
Proof.
  cbv zeta. induction evs as [|ev evs IH] using rev_ind; [done|].
  destruct IH as (Hv & Hack & Hrej).
  rewrite lifetime_snoc_state, lifetime_snoc_out, accepted_log_snoc.
  rewrite veracks_sent_app, rejects_sent_app, version_messages_app, Hack, Hrej.
  rewrite <-lifetime_state.
  pose proof (version_turn e ev (lifetime e evs).1) as Hturn.
  cbv zeta in Hturn. rewrite Hv in Hturn.
  set (versions := version_messages (accepted_log e evs (constructor e).1)) in *.
  destruct (version_messages (accepted_now e ev (lifetime e evs).1))
    as [|v [|]]; [|destruct versions as [|v1 versions'] eqn:Hvs|done].
  - destruct Hturn as (-> & -> & ->). by rewrite !app_nil_r.
  - destruct Hturn as (-> & -> & ->). done.
  - destruct Hturn as (-> & -> & ->).
    rewrite length_app, app_nil_r. simpl.
    rewrite !Nat.min_0_r, !Nat.sub_0_r, Nat.add_1_r.
    split; [done|]. split; [done|]. by rewrite replicate_S_end.
Qed.

(** ** Where addresses come from *)

(** What a turn fires was parked or is empty, and what it leaves parked was
    parked or has just been handed to the pool. *)
Lemma addresses_turn e ev s l :
  (l ∈ addresses_fired (exec (step e ev) s).2 -> l = [] \/ l ∈ suspended s)
  /\ (l ∈ suspended (exec (step e ev) s).1 ->
      l ∈ suspended s \/ (channel e, l) ∈ pushed (exec (step e ev) s).2).
Proof.
  turn_cases e ev s; simpl;
    rewrite ?elem_of_app, ?list_elem_of_singleton, ?elem_of_nil;
    (split; [try tauto|try tauto]).
  - intros [?| ->]; [by left|by right].
  - intros ->. right. by apply list_elem_of_lookup_2 in Hk.
  - intros Hin. left. by apply list_elem_of_delete_inv in Hin.
Qed.

(** X14: the agent fires no address of its own making.  In every life, a
    list fired with [addresses], or due from a parked [_onAddr], is either
    empty or one that the agent has handed to the address pool under its
    channel. *)
Theorem fired_addresses_were_pushed e evs addresses :
  addresses ∈ addresses_fired (lifetime e evs).2
  \/ addresses ∈ suspended (lifetime e evs).1 ->
  addresses = [] \/ (channel e, addresses) ∈ pushed (lifetime e evs).2.
Proof.
  revert addresses.
  apply (lifetime_ind e (fun s out => forall l,
           l ∈ addresses_fired out \/ l ∈ suspended s ->
           l = [] \/ (channel e, l) ∈ pushed out)).
  - intros l [Hin|Hin]; by apply elem_of_nil in Hin.
  - intros ev s out IH l. destruct (addresses_turn e ev s l) as [Hfired Hparked].
    unfold pushed in *. rewrite addresses_fired_app, omap_app, !elem_of_app.
    intros [[Hin|Hin]|Hin].
    + destruct (IH l) as [?|?]; [by left|by left|by right; left].
    + destruct (Hfired Hin) as [?|?]; [by left|].
      destruct (IH l) as [?|?]; [by right|by left|by right; left].
    + destruct (Hparked Hin) as [?|?]; [|by right; right].
      destruct (IH l) as [?|?]; [by right|by left|by right; left].
Qed.

Lemma fired_addresses_were_pushed_witness :
  ["ws://a"] ∈ addresses_fired
                 (lifetime env0 [message (MVersion version0); message MVerAck;
                                 message (MAddr ["ws://a"]); resolved 0]).2
  /\ (["ws://a"] = []
      \/ (channel env0, ["ws://a"])
         ∈ pushed (lifetime env0 [message (MVersion version0); message MVerAck;
                                  message (MAddr ["ws://a"]); resolved 0]).2).
Proof.
  assert (["ws://a"] ∈ addresses_fired
            (lifetime env0 [message (MVersion version0); message MVerAck;
                            message (MAddr ["ws://a"]); resolved 0]).2) as Hin
    by (apply list_elem_of_singleton; reflexivity).
  split; [exact Hin|].
  exact (fired_addresses_were_pushed env0 _ ["ws://a"] (or_introl Hin)).
Defined.

(** ** What a pong cannot do *)

(** X16: a pong, whatever its nonce and whatever the agent's state, only
    clears a timer named after a ping: the [verack], [version] and [getaddr]
    timers and the intervals stay as they are, the handshake fields and the
    parked handlers too, and nothing is sent, closed or fired. *)
Theorem pong_spares_other_timers e nonce s :
  let s' := (exec (step e (message (MPong nonce))) s).1 in
  let out := (exec (step e (message (MPong nonce))) s).2 in
  (forall key, (forall n, key <> ping_key n) ->
     Timers.timeouts (_timers s') !! key = Timers.timeouts (_timers s) !! key)
  /\ Timers.timeouts (_timers s') !! "verack"
     = Timers.timeouts (_timers s) !! "verack"
  /\ Timers.timeouts (_timers s') !! "version"
     = Timers.timeouts (_timers s) !! "version"
  /\ Timers.timeouts (_timers s') !! "getaddr"
     = Timers.timeouts (_timers s) !! "getaddr"
  /\ Timers.intervals (_timers s') = Timers.intervals (_timers s)
  /\ _connected s' = _connected s /\ _version s' = _version s
  /\ suspended s' = suspended s
  /\ out = [console_log ("[PONG] nonce=" +:+ pretty nonce)].
Proof.
  cbv zeta. rewrite step_pong. simpl.
  assert (forall key, (forall n, key <> ping_key n) ->
            delete (ping_key nonce) (Timers.timeouts (_timers s)) !! key
            = Timers.timeouts (_timers s) !! key) as Hother.
  { intros key Hkey. apply lookup_delete_ne. intros Heq. by apply (Hkey nonce). }
  split; [done|].
  split; [apply Hother; intros n Heq; by apply (ping_key_not_verack n)|].
  split; [apply Hother; intros n Heq; by apply (ping_key_not_version n)|].
  split; [apply Hother; intros n Heq; by apply (ping_key_not_getaddr n)|].
  done.
Qed.

Lemma pong_spares_other_timers_witness :
  (forall n, "verack" <> ping_key n)
  /\ Timers.timeouts
       (_timers (exec (step env0 (message (MPong 7))) agent_new).1) !! "verack"
     = Timers.timeouts (_timers agent_new) !! "verack".
Proof.
  assert (forall n, "verack" <> ping_key n) as Hne
    by (intros n Heq; by apply (ping_key_not_verack n)).
  split; [exact Hne|].
  exact (proj1 (pong_spares_other_timers env0 7 agent_new) "verack" Hne).
Defined.

(** ** More scenarios *)

(** The agent does not remember a close event that came before the
    handshake was complete: the handshake can still complete, and the
    connectivity check then runs. *)
Example early_close_is_forgotten :
  pings_sent
    (lifetime env0 [close; message (MVersion version0); message MVerAck;
                    interval "connectivity" 9]).2
  = [9%N].
Proof. reflexivity. Qed.

(** * The handshake on a channel that stays closed *)

Lemma closes_app out1 out2 :
  closes (out1 ++ out2) = (closes out1 ++ closes out2)%list.
Proof. apply omap_app. Qed.

Lemma channel_stays_closed_prefix e evs ev :
  channel_stays_closed e (evs ++ [ev]) -> channel_stays_closed e evs.
Proof.
  intros Hclosed pre msg post ->. apply (Hclosed pre msg (post ++ [ev])%list).
  by rewrite <-(assoc_L (++)).
Qed.

Lemma channel_stays_closed_last e evs msg :
  channel_stays_closed e (evs ++ [message msg]) ->
  closes (lifetime e evs).2 = [].
Proof. intros Hclosed. by apply (Hclosed evs msg []). Qed.

Lemma accepted_handshake_is_message e ev s kind kinds :
  accepted_handshake e ev s = kind :: kinds ->
  exists msg, ev = message msg /\ type msg = kind /\ kinds = []
              /\ _connected s = false.
Proof.
  destruct ev as [msg| | | |]; try done. simpl. rewrite acceptable_spec.
  destruct (isHandshakeKind msg), (_connected s); simpl; try done.
  intros [= <- <-]. by exists msg.
Qed.

(** A life whose first accepted handshake message is a verack has asked the
    channel to close. *)
Lemma early_verack_closes e evs :
  head (handshake_log e evs (constructor e).1) = Some Message.VERACK ->
  closes (lifetime e evs).2 <> [].
Proof.
  induction evs as [|ev evs IH] using rev_ind; [done|].
  rewrite handshake_log_snoc, <-lifetime_state, lifetime_snoc_out, closes_app.
  destruct (handshake_log e evs (constructor e).1) as [|kind kinds] eqn:Hlog.
  - simpl. intros Hhead.
    destruct (accepted_handshake e ev (lifetime e evs).1) as [|k ks] eqn:Hacc;
      [done|]. simpl in Hhead. injection Hhead as ->.
    apply accepted_handshake_is_message in Hacc as (msg & -> & Hkind & _ & Hc).
    destruct msg; try done.
    destruct (handshake_state_holds e evs) as [k _ Hv _ _|v k j _ _ _ Hl|v k j Hc' _ _ _].
    + rewrite step_verack_early by done. simpl. by destruct (closes _).
    + rewrite Hlog in Hl. by destruct k.
    + congruence.
  - simpl. intros Hhead. specialize (IH Hhead).
    by destruct (closes (lifetime e evs).2).
Qed.

(** On a channel that stays closed, a verack that comes before any version
    is the last handshake message the agent accepts. *)
Lemma early_verack_is_last e evs :
  channel_stays_closed e evs ->
  head (handshake_log e evs (constructor e).1) = Some Message.VERACK ->
  handshake_log e evs (constructor e).1 = [Message.VERACK].
Proof.
  induction evs as [|ev evs IH] using rev_ind; [done|].
  intros Hclosed. specialize (IH (channel_stays_closed_prefix _ _ _ Hclosed)).
  rewrite handshake_log_snoc, <-lifetime_state.
  destruct (handshake_log e evs (constructor e).1) as [|kind kinds] eqn:Hlog.
  - simpl. intros Hhead.
    destruct (accepted_handshake e ev (lifetime e evs).1) as [|k ks] eqn:Hacc;
      [done|]. simpl in Hhead. injection Hhead as ->.
    by apply accepted_handshake_is_message in Hacc as (_ & _ & _ & -> & _).
  - intros Hhead. assert (kind :: kinds = [Message.VERACK]) as Heq
      by (by apply IH).
    injection Heq as -> ->.
    destruct (accepted_handshake e ev (lifetime e evs).1) as [|k ks] eqn:Hacc;
      [done|exfalso].
    apply accepted_handshake_is_message in Hacc as (msg & -> & _).
    apply channel_stays_closed_last in Hclosed.
    apply (early_verack_closes e evs); [by rewrite Hlog|done].
Qed.

Lemma repeating_peer_is_heard : channel_stays_closed env0 repeating_peer.
Proof.
  intros pre msg post Heq. unfold repeating_peer in Heq.
  destruct pre as [|e1 pre]; [reflexivity|].
  destruct pre as [|e2 pre]; [injection Heq as <- _; reflexivity|].
  destruct pre as [|e3 pre]; [injection Heq as <- <- _; reflexivity|].
  injection Heq as _ _ _ Heq. by destruct pre.
Qed.

(** C2, counterexample: a peer that sends its version twice and then its
    verack has the three messages accepted by the gate (the second version
    is answered by a DUPLICATE reject), no close is asked for, and the agent
    fires [connected]: after two accepted version messages, not one. *)
Lemma connected_after_two_versions :
  channel_stays_closed env0 repeating_peer
  /\ connected_fired (lifetime env0 repeating_peer).2 = [peer_of env0 version0]
  /\ handshake_log env0 repeating_peer (constructor env0).1
     = [Message.VERSION; Message.VERSION; Message.VERACK]
  /\ closes (lifetime env0 repeating_peer).2 = []
  /\ ~ connected_after_one_version_one_verack.
Proof.
  split; [apply repeating_peer_is_heard|].
  split; [reflexivity|]. split; [reflexivity|]. split; [reflexivity|].
  intros Hclaim.
  by specialize (Hclaim env0 repeating_peer repeating_peer_is_heard ltac:(done)).
Qed.

(** C2, amended: in every life of an agent [connected] is fired at most
    once, and exactly when the connected flag is raised.  On a channel that
    raises no message once asked to close: when [connected] has been fired,
    the handshake messages the gate accepted are, in order, the version that
    was stored, any further versions, and one verack, which completed the
    handshake, and the peer handed to the listeners is built from the stored
    version; and when the first handshake message accepted was a verack,
    the agent has asked the channel to close and [connected] is not fired.
    A verack accepted while no version is stored closes the channel with
    "verack before version" and fires nothing. *)
Theorem connected_fires_once e evs :
  let s := (lifetime e evs).1 in
  let out := (lifetime e evs).2 in
  let log := handshake_log e evs (constructor e).1 in
  length (connected_fired out) <= 1
  /\ (connected_fired out = [] <-> _connected s = false)
  /\ (channel_stays_closed e evs ->
      forall peer, peer ∈ connected_fired out ->
        exists v j,
          _version s = Some v /\ peer = peer_of e v
          /\ log = (Message.VERSION
                    :: replicate j Message.VERSION ++ [Message.VERACK])%list)
  /\ (channel_stays_closed e evs ->
      head log = Some Message.VERACK ->
      connected_fired out = [] /\ closes out <> [])
  /\ (forall ev, accepted_handshake e ev s = [Message.VERACK] ->
        _version s = None ->
        connected_fired (exec (step e ev) s).2 = []
        /\ closes (exec (step e ev) s).2 = ["verack before version"]).
Proof.
  cbv zeta. split; [|split; [|split; [|split]]].
  - destruct (handshake_state_holds e evs) as [k _ _ -> _|v k j _ _ -> _|v k j _ _ -> _];
      simpl; lia.
  - destruct (handshake_state_holds e evs) as [k Hc _ Hf _|v k j Hc _ Hf _|v k j Hc _ Hf _];
      rewrite Hc, Hf; done.
  - intros Hclosed peer Hin.
    destruct (handshake_state_holds e evs) as [k _ _ Hf _|v k j _ _ Hf _|v k j _ Hv Hf Hl];
      rewrite Hf in Hin.
    + by apply elem_of_nil in Hin.
    + by apply elem_of_nil in Hin.
    + apply list_elem_of_singleton in Hin as ->. exists v, j.
      split; [done|]. split; [done|]. destruct k as [|k]; [done|exfalso].
      pose proof (early_verack_is_last e evs Hclosed) as Hlast.
      rewrite Hl in Hlast. specialize (Hlast eq_refl).
      apply (f_equal length) in Hlast. unfold handshake_shape in Hlast.
      rewrite length_app in Hlast. simpl in Hlast.
      rewrite length_app in Hlast. simpl in Hlast. lia.
  - intros Hclosed Hhead. split; [|by apply early_verack_closes].
    pose proof (early_verack_is_last e evs Hclosed Hhead) as Hlast.
    destruct (handshake_state_holds e evs) as [k _ _ Hf _|v k j _ _ Hf _|v k j _ _ _ Hl];
      [done|done|exfalso].
    rewrite Hlast in Hl. apply (f_equal length) in Hl.
    unfold handshake_shape in Hl. rewrite length_app in Hl. simpl in Hl.
    rewrite length_app in Hl. simpl in Hl. lia.
  - intros ev Hacc Hv.
    apply accepted_handshake_is_message in Hacc as (msg & -> & Hkind & _ & Hc).
    destruct msg; try done. by rewrite step_verack_early.
Qed.

Lemma connected_fires_once_witness :
  channel_stays_closed env0 repeating_peer
  /\ peer_of env0 version0 ∈ connected_fired (lifetime env0 repeating_peer).2
  /\ exists v j,
       _version (lifetime env0 repeating_peer).1 = Some v
       /\ peer_of env0 version0 = peer_of env0 v
       /\ handshake_log env0 repeating_peer (constructor env0).1
          = (Message.VERSION
             :: replicate j Message.VERSION ++ [Message.VERACK])%list.
Proof.
  assert (peer_of env0 version0 ∈ connected_fired (lifetime env0 repeating_peer).2)
    as Hin by (apply list_elem_of_singleton; reflexivity).
  split; [exact repeating_peer_is_heard|]. split; [exact Hin|].
  exact (proj1 (proj2 (proj2 (connected_fires_once env0 repeating_peer)))
           repeating_peer_is_heard (peer_of env0 version0) Hin).
Defined.

(** * The getaddr request and its answers *)


(** * The gate on the states an agent can be in *)




